(** * bias_test: shear properties of a fabric specimen in bias extension

    A shallow embedding of [bias_test.py] (class [BiasTest]) and the properties
    its specification states about it.

    Numbers.  The program computes with NumPy/Python double-precision numbers;
    the specification speaks of sequences of real numbers.  The embedding
    follows the specification: a number is a real ([R]), arithmetic is exact,
    and [np.sqrt], [np.sin], [np.cos], [np.arccos] and [np.pi] are the functions
    and the constant of the Standard Library.  Rounding, infinities and
    not-a-number values are outside the model: the statements are about finite
    inputs.  What the model does keep is every place where the program raises,
    or does not raise, an exception.

    Exceptions.  A method that may raise returns a [result]; the three
    exceptions the program can raise are Python's [ValueError] (the two explicit
    [raise] statements of the constructor, and NumPy's shape errors),
    [ZeroDivisionError] (a division of two Python floats) and [IndexError]
    (indexing an array past its end).

    State.  The methods mutate [self]; here a method takes the object and
    returns the updated object.  On an object the constructor built no computing
    method fails after it has assigned a field, so an exception leaves the
    object as it was.  The plotting methods compute on demand before they draw;
    they return the object together with the outcome of the drawing.

    Plots and files.  Matplotlib and [np.genfromtxt] are outside the program: a
    plotting method yields the [figure] it hands to Matplotlib (title, data,
    labels), and [importa_data] starts from the array [np.genfromtxt]
    returned. *)

From Stdlib Require Import Reals List Arith Lia Lra String Sorted.
Import ListNotations.

#[local] Open Scope R_scope.

(** ** Exceptions and results *)

Inductive exn : Type :=
| ValueError
| ZeroDivisionError
| IndexError.

Inductive result (A : Type) : Type :=
| Ok (a : A)
| Raise (e : exn).

Arguments Ok {A} a.
Arguments Raise {A} e.

Definition bind {A B : Type} (r : result A) (k : A -> result B) : result B :=
  match r with
  | Ok a => k a
  | Raise e => Raise e
  end.

Notation "x <- r ;; k" := (bind r (fun x => k))
  (at level 61, r at next level, right associativity).

(** ** Python and NumPy primitives used by the class *)

(** [x / y] on two Python floats. *)
Definition py_truediv (x y : R) : result R :=
  if Req_dec_T y 0 then Raise ZeroDivisionError else Ok (x / y).

(** [a[i]] for a one-dimensional array and an index [i >= 0]. *)
Definition getitem (a : list R) (i : nat) : result R :=
  match nth_error a i with
  | Some x => Ok x
  | None => Raise IndexError
  end.

Fixpoint update (a : list R) (i : nat) (v : R) : list R :=
  match a, i with
  | [], _ => []
  | _ :: a', O => v :: a'
  | x :: a', S i' => x :: update a' i' v
  end.

(** [a[i] = v] for a one-dimensional array and an index [i >= 0]. *)
Definition setitem (a : list R) (i : nat) (v : R) : result (list R) :=
  if (i <? List.length a)%nat then Ok (update a i v) else Raise IndexError.

(** [np.zeros(n)]. *)
Definition np_zeros (n : nat) : list R := repeat 0 n.

Fixpoint zip_with (f : R -> R -> R) (xs ys : list R) : list R :=
  match xs, ys with
  | x :: xs', y :: ys' => f x y :: zip_with f xs' ys'
  | _, _ => []
  end.

(** An elementwise binary operation on two one-dimensional arrays, with
    NumPy's broadcasting: a one-element array is stretched, equal shapes are
    combined index by index, anything else is a shape error. *)
Definition np_binop (f : R -> R -> R) (xs ys : list R) : result (list R) :=
  match xs, ys with
  | [x], _ => Ok (map (f x) ys)
  | _, [y] => Ok (map (fun x => f x y) xs)
  | _, _ =>
      if (List.length xs =? List.length ys)%nat then Ok (zip_with f xs ys)
      else Raise ValueError
  end.

(** [np.arccos].  Inside [-1, 1] it is the arc cosine; outside, NumPy yields
    not-a-number (with a warning, not an exception), a value the reals do not
    have: no statement below depends on the value of [acos] there. *)
Definition np_arccos : R -> R := acos.

(** The interval search of [np.interp]: [xp] and [fp] start at index [j] and
    [xp[j] <= x] is known; the index advances while [x >= xp[j+1]].  At the last
    sample, or on an exact hit, the sample's value is returned; otherwise the
    value is on the segment from sample [j] to sample [j+1]. *)
Fixpoint interp_from (x : R) (xp fp : list R) : R :=
  match xp, fp with
  | xj :: ((xj1 :: _) as xp'), yj :: ((yj1 :: _) as fp') =>
      if Rle_dec xj1 x then interp_from x xp' fp'
      else if Req_dec_T xj x then yj
      else (yj1 - yj) / (xj1 - xj) * (x - xj) + yj
  | _ :: _, yj :: _ => yj
  | _, _ => 0
  end.

(** [np.interp(x, xp, fp)] for a scalar [x], with the default [left] and
    [right]: piecewise-linear interpolation through the points [(xp[j], fp[j])],
    and the value of the first or last point when [x] is before the first or
    after the last abscissa.  NumPy documents the function for increasing [xp]
    only.  The interval is found here by a left-to-right search: that is the
    search NumPy runs on tables of at most four points, and on an increasing
    table the bisection it runs on longer ones finds the same interval.  On a
    longer table that is not increasing NumPy's bisection may stop elsewhere:
    every statement below that depends on the value interpolated carries one of
    the two conditions. *)
Definition np_interp (x : R) (xp fp : list R) : result R :=
  match xp with
  | [] => Raise ValueError
  | x0 :: _ =>
      if negb (List.length fp =? List.length xp)%nat then Raise ValueError
      else if Rlt_dec (last xp 0) x then Ok (last fp 0)
      else if Rlt_dec x x0 then Ok (hd 0 fp)
      else Ok (interp_from x xp fp)
  end.

(** ** The class *)

Module BiasTest.

Record t : Type := mk {
  displacement : list R;
  force : list R;
  number_mesures : nat;
  name : string;
  width : R;
  length : R;
  thickness : R;
  ratio : R;
  semi_sheared_area : R;
  sheared_area : R;
  diagonal_pf : R;
  length_side_pf : R;
  inter_fiber_angle : list R;
  shear_angle : list R;
  shear_torque : list R;
  shear_torque_computed : bool;
  shear_force : list R;
  shear_force_computed : bool
}.

(** [self.shear_torque = c; self.shear_torque_computed = True]. *)
Definition set_shear_torque (self : t) (c : list R) : t :=
  {| displacement := displacement self;
     force := force self;
     number_mesures := number_mesures self;
     name := name self;
     width := width self;
     length := length self;
     thickness := thickness self;
     ratio := ratio self;
     semi_sheared_area := semi_sheared_area self;
     sheared_area := sheared_area self;
     diagonal_pf := diagonal_pf self;
     length_side_pf := length_side_pf self;
     inter_fiber_angle := inter_fiber_angle self;
     shear_angle := shear_angle self;
     shear_torque := c;
     shear_torque_computed := true;
     shear_force := shear_force self;
     shear_force_computed := shear_force_computed self |}.

(** [self.shear_force = v; self.shear_force_computed = True]. *)
Definition set_shear_force (self : t) (v : list R) : t :=
  {| displacement := displacement self;
     force := force self;
     number_mesures := number_mesures self;
     name := name self;
     width := width self;
     length := length self;
     thickness := thickness self;
     ratio := ratio self;
     semi_sheared_area := semi_sheared_area self;
     sheared_area := sheared_area self;
     diagonal_pf := diagonal_pf self;
     length_side_pf := length_side_pf self;
     inter_fiber_angle := inter_fiber_angle self;
     shear_angle := shear_angle self;
     shear_torque := shear_torque self;
     shear_torque_computed := shear_torque_computed self;
     shear_force := v;
     shear_force_computed := true |}.

(** [_calculate_inter_fibre_angle]: reads [displacement], [diagonal_pf] and
    [length_side_pf]; array plus scalar, array over scalar, [np.arccos] and the
    product by 2 are all elementwise and raise nothing. *)
Definition _calculate_inter_fibre_angle
    (displacement : list R) (diagonal_pf length_side_pf : R) : list R :=
  map (fun d => 2 * np_arccos ((d + diagonal_pf) / (2 * length_side_pf)))
      displacement.

(** [_calculate_shear_angle]: reads [inter_fiber_angle]. *)
Definition _calculate_shear_angle (inter_fiber_angle : list R) : list R :=
  map (fun a => PI / 2 - a) inter_fiber_angle.

(** [__init__].  The inputs are already numeric sequences, so the conversion
    with [np.asarray] cannot fail.  [length / width] divides two Python
    floats. *)
Definition __init__ (displacement force : list R) (width length thickness : R)
    (material_name : string) : result t :=
  if negb (List.length displacement =? List.length force)%nat then
    Raise ValueError
  else
    r <- py_truediv length width ;;
    if Rlt_dec r 2 then Raise ValueError
    else
      let semi_sheared_area := width * width in
      let sheared_area := width * length - 1.5 * semi_sheared_area in
      let diagonal_pf := length - width in
      let length_side_pf := diagonal_pf / sqrt 2 in
      let inter_fiber_angle :=
        _calculate_inter_fibre_angle displacement diagonal_pf length_side_pf in
      let shear_angle := _calculate_shear_angle inter_fiber_angle in
      let number_mesures := List.length displacement in
      Ok {| displacement := displacement;
            force := force;
            number_mesures := number_mesures;
            name := material_name;
            width := width;
            length := length;
            thickness := thickness;
            ratio := r;
            semi_sheared_area := semi_sheared_area;
            sheared_area := sheared_area;
            diagonal_pf := diagonal_pf;
            length_side_pf := length_side_pf;
            inter_fiber_angle := inter_fiber_angle;
            shear_angle := shear_angle;
            shear_torque := np_zeros number_mesures;
            shear_torque_computed := false;
            shear_force := np_zeros number_mesures;
            shear_force_computed := false |}.

(** The bootstrap value assigned to [c[1]]. *)
Definition bootstrap (self : t) (f1 a1 : R) : R :=
  4 * length_side_pf self * f1 * sin (a1 / 2)
  / (4 * sheared_area self - semi_sheared_area self).

(** The value assigned to [c[i]] in the loop, given the reciprocal [inv] of the
    semi-sheared area and the interpolated [semi_torque]. *)
Definition recurrence (self : t) (inv fi ai semi_torque : R) : R :=
  inv * (length_side_pf self * fi * sin (ai / 2)
         - 0.5 * semi_sheared_area self * semi_torque).

(** One iteration of the loop of [calculate_shear_torque], on the current
    array [c]. *)
Definition torque_step (self : t) (c : list R) (i : nat) : result (list R) :=
  sa_i <- getitem (shear_angle self) i ;;
  let semi_angle := sa_i / 2 in
  semi_torque <- np_interp semi_angle (shear_angle self) c ;;
  inv <- py_truediv 1 (semi_sheared_area self) ;;
  f_i <- getitem (force self) i ;;
  a_i <- getitem (inter_fiber_angle self) i ;;
  setitem c i (recurrence self inv f_i a_i semi_torque).

(** The loop over a list of indices. *)
Fixpoint torque_loop (self : t) (indices : list nat) (c : list R)
  : result (list R) :=
  match indices with
  | [] => Ok c
  | i :: rest => c' <- torque_step self c i ;; torque_loop self rest c'
  end.

(** [calculate_shear_torque] (Mode A). *)
Definition calculate_shear_torque (self : t) : result t :=
  let c := np_zeros (number_mesures self) in
  f_1 <- getitem (force self) 1 ;;
  a_1 <- getitem (inter_fiber_angle self) 1 ;;
  c <- setitem c 1 (bootstrap self f_1 a_1) ;;
  c <- torque_loop self (seq 2 (number_mesures self - 2)) c ;;
  Ok (set_shear_torque self c).

(** One entry of the closed form of Mode B, given [hw = H / W]. *)
Definition closed_form (hw H W f_i sa_i : R) : R :=
  (hw - 1) * f_i * (cos (sa_i / 2) - sin (sa_i / 2)) / (2 * H - 3 * W).

(** [calculate_shear_torque_2] (Mode B).  [H / W] divides two Python floats;
    the rest is elementwise on arrays. *)
Definition calculate_shear_torque_2 (self : t) : result t :=
  let H := length self in
  let W := width self in
  let half := map (fun a => a / 2) (shear_angle self) in
  hw <- py_truediv H W ;;
  let scaled := map (fun f_i => (hw - 1) * f_i) (force self) in
  diff <- np_binop Rminus (map cos half) (map sin half) ;;
  prod <- np_binop Rmult scaled diff ;;
  Ok (set_shear_torque self (map (fun v => v / (2 * H - 3 * W)) prod)).

(** [calculate_shear_force]. *)
Definition calculate_shear_force (self : t) : result t :=
  self <- (if negb (shear_torque_computed self)
           then calculate_shear_torque self
           else Ok self) ;;
  v <- np_binop Rdiv (shear_torque self) (map cos (shear_angle self)) ;;
  Ok (set_shear_force self v).

(** *** Plots *)

(** What a plotting method hands to Matplotlib: the title, the two data
    series and the legend label of the one line, and the axis labels. *)
Record figure : Type := mk_figure {
  title : string;
  xdata : list R;
  ydata : list R;
  label : string;
  xlabel : string;
  ylabel : string
}.

(** [ax.plot(x, y, ...)] on two one-dimensional arrays: Matplotlib refuses
    series of different lengths with a [ValueError]. *)
Definition ax_plot (x y : list R) : result unit :=
  if (List.length x =? List.length y)%nat then Ok tt else Raise ValueError.

(** [self.shear_angle*180/np.pi]. *)
Definition degrees (angles : list R) : list R :=
  map (fun a => a * 180 / PI) angles.

(** [plot_angle_displacement]. *)
Definition plot_angle_displacement (self : t) : t * result figure :=
  (self,
   _ <- ax_plot (displacement self) (degrees (shear_angle self)) ;;
   Ok {| title := "Shear angle  = f(displacement) : " ++ name self;
         xdata := displacement self;
         ydata := degrees (shear_angle self);
         label := "Theoretical";
         xlabel := "Displacement (mm)";
         ylabel := "Shear angle  (°)" |}).

(** [plot_force_displacement]. *)
Definition plot_force_displacement (self : t) : t * result figure :=
  (self,
   _ <- ax_plot (displacement self) (force self) ;;
   Ok {| title := "Force = f(displacement) : " ++ name self;
         xdata := displacement self;
         ydata := force self;
         label := "Experimental";
         xlabel := "Displacement (mm)";
         ylabel := "Force (N)" |}).

(** [plot_torque_angle]: Mode A runs first when the torque is not computed; the
    abscissas are the shear angles as stored, in radians. *)
Definition plot_torque_angle (self : t) : t * result figure :=
  match (if negb (shear_torque_computed self)
         then calculate_shear_torque self
         else Ok self) with
  | Raise e => (self, Raise e)
  | Ok self =>
      (self,
       _ <- ax_plot (shear_angle self) (shear_torque self) ;;
       Ok {| title := "Shear torque = f(shear angle) : " ++ name self;
             xdata := shear_angle self;
             ydata := shear_torque self;
             label := "Experimental";
             xlabel := "Shear Angle (°)";
             ylabel := "Shear torque (N mm)" |})
  end.

(** [plot_shear_force_angle]: [calculate_shear_force] runs first when the shear
    force is not computed; the abscissas are the shear angles in degrees. *)
Definition plot_shear_force_angle (self : t) : t * result figure :=
  match (if negb (shear_force_computed self)
         then calculate_shear_force self
         else Ok self) with
  | Raise e => (self, Raise e)
  | Ok self =>
      (self,
       _ <- ax_plot (degrees (shear_angle self)) (shear_force self) ;;
       Ok {| title := "Shear force = f(shear angle) : " ++ name self;
             xdata := degrees (shear_angle self);
             ydata := shear_force self;
             label := "Experimental";
             xlabel := "Shear Angle (°)";
             ylabel := "Shear force (N mm)" |})
  end.

End BiasTest.

Import BiasTest.

(** ** The script [main.py] *)

Module Main.

(** The array [np.genfromtxt] returns: two-dimensional, [rows] of [ncols]
    numbers each, when the file has several rows and several columns;
    one-dimensional otherwise. *)
Inductive ndarray : Type :=
| Array1 (a : list R)
| Array2 (ncols : nat) (rows : list (list R)).

(** [data[:, j]]: a one-dimensional array has no second axis. *)
Definition column (data : ndarray) (j : nat) : result (list R) :=
  match data with
  | Array1 _ => Raise IndexError
  | Array2 ncols rows =>
      if (j <? ncols)%nat then Ok (map (fun row => nth j row 0) rows)
      else Raise IndexError
  end.

(** [data[i, j]]. *)
Definition item (data : ndarray) (i j : nat) : result R :=
  match data with
  | Array1 _ => Raise IndexError
  | Array2 ncols rows =>
      match nth_error rows i with
      | Some row =>
          if (j <? ncols)%nat then Ok (nth j row 0) else Raise IndexError
      | None => Raise IndexError
      end
  end.

(** [importa_data], from the array that [np.genfromtxt] returned. *)
Definition importa_data (data : ndarray) : result (list R * list R) :=
  c0 <- column data 0 ;;
  d0 <- item data 0 0 ;;
  let d_exp := map (fun v => v - d0) c0 in
  c1 <- column data 1 ;;
  f0 <- item data 0 1 ;;
  let f_exp := map (fun v => v - f0) c1 in
  Ok (d_exp, f_exp).

(** The two-column array whose columns are [d] and [f], as [np.genfromtxt]
    reads it back from a file that holds them. *)
Fixpoint two_columns (d f : list R) : list (list R) :=
  match d, f with
  | x :: d', y :: f' => [x; y] :: two_columns d' f'
  | _, _ => []
  end.

(** A plotting call of the script: an exception ends the run. *)
Definition show (call : t * result figure) : result (t * figure) :=
  fig <- snd call ;; Ok (fst call, fig).

(** The script, from the array read to the last plot (the closing
    [print(sample)] is left out): the object at the end and the four figures
    in the order they are drawn. *)
Definition main (data : ndarray) : result (t * list figure) :=
  exp <- importa_data data ;;
  sample <- __init__ (fst exp) (snd exp) 150 450 1 "Flax 250" ;;
  p1 <- show (plot_force_displacement sample) ;;
  p2 <- show (plot_angle_displacement (fst p1)) ;;
  p3 <- show (plot_torque_angle (fst p2)) ;;
  p4 <- show (plot_shear_force_angle (fst p3)) ;;
  Ok (fst p4, [snd p1; snd p2; snd p3; snd p4]).

End Main.

(** ** The class invariant

    Every array of the object has [number_mesures] entries, and the width and
    the semi-sheared area are not zero.  The constructor establishes it and the
    three computing methods keep it. *)

Definition well_formed (self : t) : Prop :=
  List.length (displacement self) = number_mesures self /\
  List.length (force self) = number_mesures self /\
  List.length (inter_fiber_angle self) = number_mesures self /\
  List.length (shear_angle self) = number_mesures self /\
  List.length (shear_torque self) = number_mesures self /\
  List.length (shear_force self) = number_mesures self /\
  width self <> 0 /\
  semi_sheared_area self <> 0.

(** Mode A as the specification words it: step [i] interpolates at half the
    shear angle in the table made of the first [i] shear angles and the first
    [i] torques only, and sets
    [c[i] = (1/a) (L F[i] sin(theta_f[i]/2) - 0.5 a semi_torque)]. *)
Definition prefix_recurrence (self : t) (c : list R) (i : nat) : Prop :=
  exists sa_i f_i a_i semi_torque,
    nth_error (shear_angle self) i = Some sa_i /\
    nth_error (force self) i = Some f_i /\
    nth_error (inter_fiber_angle self) i = Some a_i /\
    np_interp (sa_i / 2) (firstn i (shear_angle self)) (firstn i c)
      = Ok semi_torque /\
    nth_error c i
      = Some (1 / semi_sheared_area self
              * (length_side_pf self * f_i * sin (a_i / 2)
                 - 0.5 * semi_sheared_area self * semi_torque)).

(** Mode A as the program runs it: the same step, but the table is the whole
    array of shear angles against the whole array [c] in its state at step [i],
    that is the torques already computed followed by the zeros that
    [np.zeros] left at the indices [i] and above. *)
Definition current_recurrence (self : t) (c : list R) (i : nat) : Prop :=
  exists sa_i f_i a_i semi_torque,
    nth_error (shear_angle self) i = Some sa_i /\
    nth_error (force self) i = Some f_i /\
    nth_error (inter_fiber_angle self) i = Some a_i /\
    np_interp (sa_i / 2) (shear_angle self)
      (firstn i c ++ repeat 0 (number_mesures self - i)) = Ok semi_torque /\
    nth_error c i
      = Some (1 / semi_sheared_area self
              * (length_side_pf self * f_i * sin (a_i / 2)
                 - 0.5 * semi_sheared_area self * semi_torque)).

(** The fields a run of Mode A must leave alone. *)
Definition same_inputs (self self' : t) : Prop :=
  displacement self' = displacement self /\
  force self' = force self /\
  inter_fiber_angle self' = inter_fiber_angle self /\
  shear_angle self' = shear_angle self /\
  shear_force self' = shear_force self /\
  shear_force_computed self' = shear_force_computed self /\
  width self' = width self /\
  length self' = length self /\
  thickness self' = thickness self /\
  ratio self' = ratio self /\
  semi_sheared_area self' = semi_sheared_area self /\
  sheared_area self' = sheared_area self /\
  diagonal_pf self' = diagonal_pf self /\
  length_side_pf self' = length_side_pf self /\
  number_mesures self' = number_mesures self /\
  name self' = name self.

(** ** Sample runs *)

(** The end-to-end scenario of the specification: a 150 by 450 specimen and
    four samples. *)
Definition scenario : result t :=
  __init__ [0; 1; 2; 3] [0; 10; 20; 30] 150 450 1 "Flax 250".

(** A specimen with a single sample. *)
Definition single_sample : result t :=
  __init__ [0] [0] 150 450 1 "Flax 250".

(** The displacement at which the picture frame of a 1 by 3 specimen is
    closed, [2 length_side_pf - diagonal_pf]: the arccos argument is 1 there. *)
Definition closing_displacement : R := 2 * ((3 - 1) / sqrt 2) - (3 - 1).

(** A 1 by 3 specimen stretched in growing steps up to its travel limit: the
    shear angles are 0, pi/6 and pi/2. *)
Definition growing_steps : result t :=
  __init__ [0; sqrt 2 * sqrt 3 - 2; closing_displacement] [0; 5; 0] 1 3 1
    "Generic material".

(** A 1 by 3 specimen whose second sample is at the travel limit: the shear
    angle there is pi/2. *)
Definition travel_limit : result t :=
  __init__ [0; closing_displacement] [0; 1] 1 3 1 "Generic material".

(** A 1 by 3 specimen stretched in even steps of the shear angle: 0, pi/6 and
    pi/3. *)
Definition even_steps : result t :=
  __init__
    [0; sqrt 2 * sqrt 3 - 2; 2 * ((3 - 1) / sqrt 2) * cos (PI / 12) - (3 - 1)]
    [0; 5; 7] 1 3 1 "Generic material".

(** A 1 by 3 specimen whose second displacement is beyond the travel limit. *)
Definition beyond_travel : result t :=
  __init__ [0; 2] [0; 1] 1 3 1 "Generic material".

(** A specimen declared with a negative thickness. *)
Definition negative_thickness : result t :=
  __init__ [0; 1] [0; 10] 150 450 (-1) "Generic material".

(** ** Arrays *)

Lemma getitem_Some (a : list R) (i : nat) (x : R) :
  nth_error a i = Some x -> getitem a i = Ok x.
Proof. unfold getitem. now intros ->. Qed.

Lemma getitem_in_range (a : list R) (i : nat) :
  (i < List.length a)%nat ->
  exists x, nth_error a i = Some x /\ getitem a i = Ok x.
Proof.
  intros Hi. destruct (nth_error a i) as [x|] eqn:E.
  - exists x. split; [reflexivity | now apply getitem_Some].
  - apply nth_error_None in E. lia.
Qed.

Lemma getitem_out_of_range (a : list R) (i : nat) :
  (List.length a <= i)%nat -> getitem a i = Raise IndexError.
Proof.
  intros Hi. unfold getitem. apply nth_error_None in Hi. now rewrite Hi.
Qed.

Lemma getitem_cases (a : list R) (i : nat) :
  getitem a i = Raise IndexError \/ exists x, getitem a i = Ok x.
Proof.
  unfold getitem. destruct (nth_error a i); [right; eauto | now left].
Qed.

Lemma update_length (a : list R) (i : nat) (v : R) :
  List.length (update a i v) = List.length a.
Proof.
  revert i. induction a as [|x a IH]; intros [|i]; simpl; auto.
Qed.

Lemma update_same (a : list R) (i : nat) (v : R) :
  (i < List.length a)%nat -> nth_error (update a i v) i = Some v.
Proof.
  revert i. induction a as [|x a IH]; intros [|i]; simpl; intros H;
    try lia; auto. apply IH. lia.
Qed.

Lemma update_other (a : list R) (i j : nat) (v : R) :
  i <> j -> nth_error (update a i v) j = nth_error a j.
Proof.
  revert i j. induction a as [|x a IH]; intros [|i] [|j] H; simpl; auto;
    congruence.
Qed.

Lemma update_skipn (a : list R) (i j : nat) (v : R) :
  (i < j)%nat -> skipn j (update a i v) = skipn j a.
Proof.
  revert i j. induction a as [|x a IH]; intros [|i] [|j] H; simpl; auto;
    try lia. apply IH. lia.
Qed.

Lemma setitem_in_range (a : list R) (i : nat) (v : R) :
  (i < List.length a)%nat -> setitem a i v = Ok (update a i v).
Proof.
  intros H. unfold setitem. apply Nat.ltb_lt in H. now rewrite H.
Qed.

Lemma setitem_out_of_range (a : list R) (i : nat) (v : R) :
  (List.length a <= i)%nat -> setitem a i v = Raise IndexError.
Proof.
  intros H. unfold setitem. apply Nat.ltb_ge in H. now rewrite H.
Qed.

Lemma np_zeros_length (n : nat) : List.length (np_zeros n) = n.
Proof. apply repeat_length. Qed.

Lemma np_zeros_nth (n i : nat) :
  (i < n)%nat -> nth_error (np_zeros n) i = Some 0.
Proof.
  intros H. unfold np_zeros. now rewrite nth_error_repeat.
Qed.

Lemma firstn_agree (k : nat) (l l' : list R) :
  List.length l = List.length l' ->
  (forall j, (j < k)%nat -> nth_error l' j = nth_error l j) ->
  firstn k l' = firstn k l.
Proof.
  revert l l'. induction k as [|k IH]; intros l l' Hlen H; [reflexivity|].
  destruct l as [|x l], l' as [|x' l']; simpl in *; try discriminate; auto.
  assert (Hx : Some x' = Some x) by (apply (H 0%nat); lia).
  injection Hx as ->. f_equal. apply IH; [lia|].
  intros j Hj. apply (H (S j)). lia.
Qed.

Lemma zip_with_length (f : R -> R -> R) (xs ys : list R) :
  List.length xs = List.length ys ->
  List.length (zip_with f xs ys) = List.length xs.
Proof.
  revert ys. induction xs as [|x xs IH]; intros [|y ys] H; simpl in *;
    try discriminate; auto.
Qed.

Lemma zip_with_nth (f : R -> R -> R) (xs ys : list R) (i : nat) (x y : R) :
  nth_error xs i = Some x -> nth_error ys i = Some y ->
  nth_error (zip_with f xs ys) i = Some (f x y).
Proof.
  revert ys i. induction xs as [|x0 xs IH]; intros [|y0 ys] [|i]; simpl;
    try discriminate; auto.
  intros [= ->] [= ->]. reflexivity.
Qed.

Lemma np_binop_same_shape (f : R -> R -> R) (xs ys : list R) :
  List.length xs = List.length ys ->
  np_binop f xs ys = Ok (zip_with f xs ys).
Proof.
  intros H. unfold np_binop.
  destruct xs as [|x [|x' xs]], ys as [|y [|y' ys]]; simpl in *;
    try discriminate; try reflexivity.
  injection H as H. apply Nat.eqb_eq in H. now rewrite H.
Qed.

Lemma np_interp_total (x : R) (xp fp : list R) :
  xp <> [] -> List.length fp = List.length xp ->
  exists v, np_interp x xp fp = Ok v.
Proof.
  intros Hne Hlen. unfold np_interp. destruct xp as [|x0 xp]; [congruence|].
  apply Nat.eqb_eq in Hlen. rewrite Hlen. simpl.
  destruct (Rlt_dec _ _); [eauto|]. destruct (Rlt_dec _ _); eauto.
Qed.

Lemma skipn_np_zeros (n i : nat) :
  skipn i (np_zeros n) = repeat 0 (n - i).
Proof.
  unfold np_zeros. revert i. induction n as [|n IH]; intros [|i]; simpl; auto.
Qed.

(** ** [np.interp] on an increasing table *)

Lemma sorted_head_le_last (x0 : R) (xs : list R) :
  StronglySorted Rlt (x0 :: xs) -> x0 <= last (x0 :: xs) 0.
Proof.
  revert x0. induction xs as [|x1 xs IH]; intros x0 H; [simpl; lra|].
  apply StronglySorted_inv in H as [Hs Hall].
  apply Forall_inv in Hall. specialize (IH x1 Hs).
  change (last (x0 :: x1 :: xs) 0) with (last (x1 :: xs) 0). lra.
Qed.

Lemma sorted_head_le_nth (x0 : R) (xs : list R) (j : nat) (xj : R) :
  StronglySorted Rlt (x0 :: xs) -> nth_error (x0 :: xs) j = Some xj ->
  x0 <= xj.
Proof.
  intros H Hj. destruct j as [|j]; simpl in Hj.
  - injection Hj as ->. lra.
  - apply StronglySorted_inv in H as [_ Hall].
    apply nth_error_In in Hj. rewrite Forall_forall in Hall.
    specialize (Hall _ Hj). lra.
Qed.

Lemma sorted_nth_le_last (xp : list R) (j : nat) (xj : R) :
  StronglySorted Rlt xp -> nth_error xp j = Some xj -> xj <= last xp 0.
Proof.
  revert j. induction xp as [|x0 xs IH]; intros j H Hj.
  - destruct j; discriminate.
  - destruct j as [|j]; simpl in Hj.
    + injection Hj as <-. now apply sorted_head_le_last.
    + destruct xs as [|x1 xs]; [destruct j; discriminate|].
      change (last (x0 :: x1 :: xs) 0) with (last (x1 :: xs) 0).
      apply StronglySorted_inv in H as [Hs _]. now apply (IH j).
Qed.

(** Inside the table, on the segment from abscissa [j] to abscissa [j+1], the
    search stops at [j] and the value is on the line through the two points. *)
Lemma interp_from_segment (x : R) (j : nat) :
  forall (xp fp : list R) (xj xj1 yj yj1 : R),
    StronglySorted Rlt xp ->
    nth_error xp j = Some xj -> nth_error xp (S j) = Some xj1 ->
    nth_error fp j = Some yj -> nth_error fp (S j) = Some yj1 ->
    xj <= x < xj1 ->
    interp_from x xp fp = (yj1 - yj) / (xj1 - xj) * (x - xj) + yj.
Proof.
  induction j as [|j IH]; intros xp fp xj xj1 yj yj1 Hs Hxj Hxj1 Hyj Hyj1 Hx.
  - destruct xp as [|a [|b xp]], fp as [|c [|e fp]]; try discriminate.
    simpl in *.
    injection Hxj as ->. injection Hxj1 as ->.
    injection Hyj as ->. injection Hyj1 as ->.
    destruct (Rle_dec xj1 x); [lra|].
    destruct (Req_dec_T xj x) as [->|_]; [|reflexivity].
    replace (x - x) with 0 by lra. lra.
  - destruct xp as [|a [|b xp]], fp as [|c [|e fp]]; try discriminate;
      try (destruct j; discriminate).
    change (nth_error (b :: xp) j = Some xj) in Hxj.
    change (nth_error (b :: xp) (S j) = Some xj1) in Hxj1.
    change (nth_error (e :: fp) j = Some yj) in Hyj.
    change (nth_error (e :: fp) (S j) = Some yj1) in Hyj1.
    apply StronglySorted_inv in Hs as [Hs _].
    pose proof (sorted_head_le_nth _ _ _ _ Hs Hxj).
    cbn [interp_from]. destruct (Rle_dec b x); [|lra].
    now apply (IH (b :: xp) (e :: fp) xj xj1 yj yj1).
Qed.

(** After the last abscissa the value is the last ordinate. *)
Lemma np_interp_after_last (x : R) (xp fp : list R) :
  xp <> [] -> List.length fp = List.length xp -> last xp 0 < x ->
  np_interp x xp fp = Ok (last fp 0).
Proof.
  intros Hne Hlen Hx. unfold np_interp. destruct xp as [|x0 xp]; [congruence|].
  apply Nat.eqb_eq in Hlen. rewrite Hlen. cbn [negb].
  destruct (Rlt_dec _ _); [reflexivity | contradiction].
Qed.

(** Before the first abscissa of an increasing table the value is the first
    ordinate. *)
Lemma np_interp_before_first (x : R) (xp fp : list R) :
  StronglySorted Rlt xp -> xp <> [] -> List.length fp = List.length xp ->
  x < hd 0 xp ->
  np_interp x xp fp = Ok (hd 0 fp).
Proof.
  intros Hs Hne Hlen Hx. unfold np_interp.
  destruct xp as [|x0 xp]; [congruence|].
  apply Nat.eqb_eq in Hlen. rewrite Hlen. cbn [negb].
  pose proof (sorted_head_le_last _ _ Hs). simpl in Hx.
  destruct (Rlt_dec _ _); [lra|].
  destruct (Rlt_dec _ _); [reflexivity | contradiction].
Qed.

(** Between two consecutive abscissas of an increasing table the value is the
    linear interpolant of the two points. *)
Lemma np_interp_segment (x : R) (xp fp : list R) (j : nat)
    (xj xj1 yj yj1 : R) :
  StronglySorted Rlt xp -> List.length fp = List.length xp ->
  nth_error xp j = Some xj -> nth_error xp (S j) = Some xj1 ->
  nth_error fp j = Some yj -> nth_error fp (S j) = Some yj1 ->
  xj <= x < xj1 ->
  np_interp x xp fp = Ok ((yj1 - yj) / (xj1 - xj) * (x - xj) + yj).
Proof.
  intros Hs Hlen Hxj Hxj1 Hyj Hyj1 Hx. unfold np_interp.
  destruct xp as [|x0 xp]; [destruct j; discriminate|].
  apply Nat.eqb_eq in Hlen. rewrite Hlen. cbn [negb].
  pose proof (sorted_nth_le_last _ _ _ Hs Hxj1).
  pose proof (sorted_head_le_nth _ _ _ _ Hs Hxj).
  destruct (Rlt_dec _ _); [lra|].
  destruct (Rlt_dec _ _); [lra|].
  f_equal. now apply (interp_from_segment x j).
Qed.

Lemma last_firstn (xp : list R) (i : nat) (x_prev : R) :
  (1 <= i)%nat -> nth_error xp (i - 1) = Some x_prev ->
  last (firstn i xp) 0 = x_prev.
Proof.
  revert i. induction xp as [|x0 xs IH]; intros i Hi H.
  - destruct (i - 1)%nat; discriminate.
  - destruct i as [|[|i]]; [lia | |].
    + simpl in H. injection H as <-. reflexivity.
    + replace (S (S i) - 1)%nat with (S (S i - 1)) in H by lia.
      cbn [nth_error] in H.
      destruct xs as [|x1 xs]; [destruct (S i - 1)%nat; discriminate|].
      change (firstn (S (S i)) (x0 :: x1 :: xs))
        with (x0 :: firstn (S i) (x1 :: xs)).
      change (last (x0 :: firstn (S i) (x1 :: xs)) 0)
        with (last (firstn (S i) (x1 :: xs)) 0).
      apply IH; [lia | exact H].
Qed.

(** When the query is not after abscissa [i - 1] of an increasing table, the
    search never looks past the first [i] points. *)
Lemma interp_from_firstn (x : R) (xp : list R) :
  forall (i : nat) (fp : list R),
    StronglySorted Rlt xp -> List.length fp = List.length xp ->
    (1 <= i)%nat -> hd 0 xp <= x ->
    (forall x_prev, nth_error xp (i - 1) = Some x_prev -> x <= x_prev) ->
    interp_from x (firstn i xp) (firstn i fp) = interp_from x xp fp.
Proof.
  induction xp as [|a xs IH]; intros i fp Hs Hlen Hi Hhd Hprev.
  - now rewrite firstn_nil.
  - destruct fp as [|c fp]; [discriminate|].
    destruct i as [|i]; [lia|].
    destruct xs as [|b xs], fp as [|e fp]; try discriminate.
    + cbn [firstn]. now rewrite !firstn_nil.
    + pose proof Hs as Hab. apply StronglySorted_inv in Hab as [Hs' Hab].
      apply Forall_inv in Hab. simpl in Hhd.
      destruct i as [|i].
      * specialize (Hprev a eq_refl). cbn.
        destruct (Rle_dec b x); [lra|].
        destruct (Req_dec_T a x); [reflexivity | lra].
      * change (firstn (S (S i)) (a :: b :: xs))
          with (a :: firstn (S i) (b :: xs)).
        change (firstn (S (S i)) (c :: e :: fp))
          with (c :: firstn (S i) (e :: fp)).
        specialize (IH (S i) (e :: fp) Hs').
        change (firstn (S i) (b :: xs)) with (b :: firstn i xs) in *.
        change (firstn (S i) (e :: fp)) with (e :: firstn i fp) in *.
        cbn [interp_from]. destruct (Rle_dec b x) as [Hb|Hb]; [|reflexivity].
        apply IH; [simpl in *; lia | lia | exact Hb |].
        intros x_prev H. apply Hprev.
        replace (S (S i) - 1)%nat with (S (S i - 1)) by lia. exact H.
Qed.

Lemma np_interp_firstn (x : R) (xp fp : list R) (i : nat) :
  StronglySorted Rlt xp -> List.length fp = List.length xp ->
  (1 <= i <= List.length xp)%nat ->
  (forall x_prev, nth_error xp (i - 1) = Some x_prev -> x <= x_prev) ->
  np_interp x (firstn i xp) (firstn i fp) = np_interp x xp fp.
Proof.
  intros Hs Hlen Hi Hprev.
  destruct (nth_error xp (i - 1)) as [x_prev|] eqn:E.
  2:{ apply nth_error_None in E. lia. }
  specialize (Hprev x_prev eq_refl).
  pose proof (last_firstn xp i x_prev ltac:(lia) E) as Hlast.
  pose proof (sorted_nth_le_last _ _ _ Hs E) as Hle.
  assert (Hlen' : List.length (firstn i fp) = List.length (firstn i xp))
    by (rewrite !length_firstn; lia).
  unfold np_interp.
  destruct xp as [|x0 xs]; [simpl in Hi; lia|].
  destruct fp as [|y0 ys]; [discriminate|].
  destruct i as [|i]; [lia|].
  change (firstn (S i) (x0 :: xs)) with (x0 :: firstn i xs) in *.
  change (firstn (S i) (y0 :: ys)) with (y0 :: firstn i ys) in *.
  apply Nat.eqb_eq in Hlen, Hlen'. rewrite Hlen, Hlen'. cbn [negb].
  rewrite Hlast.
  destruct (Rlt_dec x_prev x); [lra|].
  destruct (Rlt_dec (last (x0 :: xs) 0) x); [lra|].
  destruct (Rlt_dec x x0) as [|Hx0]; [reflexivity|].
  f_equal. apply Nat.eqb_eq in Hlen.
  apply (interp_from_firstn x (x0 :: xs) (S i) (y0 :: ys));
    [assumption | assumption | lia | simpl; lra |].
  intros p Hp. rewrite E in Hp. injection Hp as <-. exact Hprev.
Qed.

(** ** The loop of Mode A *)

Section ModeA.

Variable self : t.
Hypothesis WF : well_formed self.

Let N := number_mesures self.

Lemma torque_step_runs (c : list R) (i : nat) :
  List.length c = N -> (i < N)%nat ->
  exists sa_i f_i a_i semi_torque,
    nth_error (shear_angle self) i = Some sa_i /\
    nth_error (force self) i = Some f_i /\
    nth_error (inter_fiber_angle self) i = Some a_i /\
    np_interp (sa_i / 2) (shear_angle self) c = Ok semi_torque /\
    torque_step self c i
      = Ok (update c i (recurrence self (1 / semi_sheared_area self)
                          f_i a_i semi_torque)).
Proof.
  intros Hc Hi. subst N.
  destruct WF as (_ & Hf & Ha & Hs & _ & _ & _ & Harea).
  destruct (getitem_in_range (shear_angle self) i) as (sa_i & Es & Gs); [lia|].
  destruct (getitem_in_range (force self) i) as (f_i & Ef & Gf); [lia|].
  destruct (getitem_in_range (inter_fiber_angle self) i) as (a_i & Ea & Ga);
    [lia|].
  destruct (np_interp_total (sa_i / 2) (shear_angle self) c) as (st & Est).
  { intros E. rewrite E in Hs. simpl in Hs. lia. }
  { lia. }
  exists sa_i, f_i, a_i, st. repeat split; auto.
  unfold torque_step. rewrite Gs. simpl. rewrite Est. simpl.
  unfold py_truediv. destruct (Req_dec_T _ _) as [E|_]; [contradiction|].
  simpl. rewrite Gf. simpl. rewrite Ga. simpl.
  apply setitem_in_range. lia.
Qed.

Lemma torque_loop_runs (m k : nat) (c : list R) :
  List.length c = N -> (k + m <= N)%nat ->
  exists c',
    torque_loop self (seq k m) c = Ok c' /\
    List.length c' = N /\
    (forall j, (j < k)%nat -> nth_error c' j = nth_error c j) /\
    (forall i, (k <= i < k + m)%nat ->
       exists sa_i f_i a_i semi_torque,
         nth_error (shear_angle self) i = Some sa_i /\
         nth_error (force self) i = Some f_i /\
         nth_error (inter_fiber_angle self) i = Some a_i /\
         np_interp (sa_i / 2) (shear_angle self) (firstn i c' ++ skipn i c)
           = Ok semi_torque /\
         nth_error c' i
           = Some (recurrence self (1 / semi_sheared_area self)
                     f_i a_i semi_torque)).
Proof.
  revert k c. induction m as [|m IH]; intros k c Hc Hk.
  - exists c. simpl. repeat split; auto. intros i Hi. lia.
  - destruct (torque_step_runs c k Hc)
      as (sa_k & f_k & a_k & st & Es & Ef & Ea & Est & Estep); [lia|].
    set (v := recurrence self (1 / semi_sheared_area self) f_k a_k st) in *.
    destruct (IH (S k) (update c k v)) as (c' & Eloop & Hlen & Hlow & Hstep).
    { now rewrite update_length. }
    { lia. }
    exists c'. simpl. rewrite Estep. simpl. rewrite Eloop.
    split; [reflexivity|]. split; [assumption|]. split.
    + intros j Hj. rewrite Hlow by lia. apply update_other. lia.
    + intros i Hi. destruct (Nat.eq_dec i k) as [->|Hne].
      * exists sa_k, f_k, a_k, st. repeat split; auto.
        -- replace (firstn k c') with (firstn k c).
           ++ now rewrite firstn_skipn.
           ++ symmetry. apply firstn_agree; [lia|].
              intros j Hj. rewrite Hlow by lia. apply update_other. lia.
        -- rewrite Hlow by lia. apply update_same. lia.
      * destruct (Hstep i)
          as (sa_i & f_i & a_i & st_i & H1 & H2 & H3 & H4 & H5); [lia|].
        exists sa_i, f_i, a_i, st_i. repeat split; auto.
        rewrite update_skipn in H4 by lia. exact H4.
Qed.

(** What a run of Mode A on at least two samples returns. *)
Lemma calculate_shear_torque_runs :
  (2 <= N)%nat ->
  exists c f_1 a_1,
    calculate_shear_torque self = Ok (set_shear_torque self c) /\
    List.length c = N /\
    nth_error (force self) 1 = Some f_1 /\
    nth_error (inter_fiber_angle self) 1 = Some a_1 /\
    nth_error c 0 = Some 0 /\
    nth_error c 1 = Some (bootstrap self f_1 a_1) /\
    forall i, (2 <= i < N)%nat -> current_recurrence self c i.
Proof.
  intros HN. pose proof WF as (_ & Hf & Ha & _).
  destruct (getitem_in_range (force self) 1) as (f_1 & Ef & Gf); [fold N; lia|].
  destruct (getitem_in_range (inter_fiber_angle self) 1) as (a_1 & Ea & Ga);
    [fold N; lia|].
  set (c0 := update (np_zeros N) 1 (bootstrap self f_1 a_1)).
  destruct (torque_loop_runs (N - 2) 2 c0) as (c & Eloop & Hlen & Hlow & Hstep).
  { unfold c0. now rewrite update_length, np_zeros_length. }
  { lia. }
  exists c, f_1, a_1. unfold calculate_shear_torque. fold N.
  rewrite Gf. cbn [bind]. rewrite Ga. cbn [bind].
  rewrite setitem_in_range by (rewrite np_zeros_length; lia). cbn [bind].
  fold c0. rewrite Eloop. cbn [bind]. repeat split; auto.
  - rewrite Hlow by lia. unfold c0. rewrite update_other by lia.
    apply np_zeros_nth. lia.
  - rewrite Hlow by lia. unfold c0. apply update_same.
    rewrite np_zeros_length. lia.
  - intros i Hi.
    destruct (Hstep i) as (sa_i & f_i & a_i & st & H1 & H2 & H3 & H4 & H5);
      [lia|].
    exists sa_i, f_i, a_i, st. repeat split; auto.
    unfold c0 in H4. rewrite update_skipn, skipn_np_zeros in H4 by lia.
    exact H4.
Qed.

End ModeA.

Lemma torque_step_length (self : t) (c c' : list R) (i : nat) :
  torque_step self c i = Ok c' -> List.length c' = List.length c.
Proof.
  unfold torque_step.
  destruct (getitem _ _); simpl; [|discriminate].
  destruct (np_interp _ _ _); simpl; [|discriminate].
  destruct (py_truediv _ _); simpl; [|discriminate].
  destruct (getitem _ _); simpl; [|discriminate].
  destruct (getitem _ _); simpl; [|discriminate].
  unfold setitem. destruct (_ <? _)%nat; [|discriminate].
  intros [= <-]. apply update_length.
Qed.

Lemma torque_loop_length (self : t) (indices : list nat) (c c' : list R) :
  torque_loop self indices c = Ok c' -> List.length c' = List.length c.
Proof.
  revert c. induction indices as [|i rest IH]; intros c; simpl.
  - now intros [= <-].
  - destruct (torque_step self c i) as [c1|] eqn:E; simpl; [|discriminate].
    intros H. rewrite (IH _ H). eapply torque_step_length; eauto.
Qed.

(** Mode A, when it returns, returns [self] with a new torque array of
    [number_mesures] entries. *)
Lemma calculate_shear_torque_returns (self self' : t) :
  calculate_shear_torque self = Ok self' ->
  exists c, self' = set_shear_torque self c /\
            List.length c = number_mesures self.
Proof.
  unfold calculate_shear_torque.
  destruct (getitem _ _); simpl; [|discriminate].
  destruct (getitem _ _); simpl; [|discriminate].
  destruct (setitem _ _ _) as [c0|] eqn:E0; simpl; [|discriminate].
  destruct (torque_loop _ _ _) as [c|] eqn:E; simpl; [|discriminate].
  intros [= <-]. exists c. split; [reflexivity|].
  rewrite (torque_loop_length _ _ _ _ E).
  unfold setitem in E0. destruct (_ <? _)%nat; [|discriminate].
  injection E0 as <-. now rewrite update_length, np_zeros_length.
Qed.

(** ** The constructor *)

Lemma __init___runs (d f : list R) (w l th : R) (n : string) :
  List.length d = List.length f -> w <> 0 -> ~ l / w < 2 ->
  exists self,
    __init__ d f w l th n = Ok self /\
    displacement self = d /\ force self = f /\
    number_mesures self = List.length d /\
    width self = w /\ length self = l /\ thickness self = th /\
    ratio self = l / w /\
    semi_sheared_area self = w * w /\
    sheared_area self = w * l - 1.5 * (w * w) /\
    diagonal_pf self = l - w /\
    length_side_pf self = (l - w) / sqrt 2 /\
    inter_fiber_angle self
      = _calculate_inter_fibre_angle d (l - w) ((l - w) / sqrt 2) /\
    shear_angle self = _calculate_shear_angle (inter_fiber_angle self) /\
    shear_torque self = np_zeros (List.length d) /\
    shear_torque_computed self = false /\
    shear_force self = np_zeros (List.length d) /\
    shear_force_computed self = false.
Proof.
  intros Hlen Hw Hr. unfold __init__, py_truediv.
  apply Nat.eqb_eq in Hlen. rewrite Hlen. simpl.
  destruct (Req_dec_T w 0) as [E|_]; [contradiction|]. simpl.
  destruct (Rlt_dec (l / w) 2) as [E|_]; [contradiction|].
  eexists. split; [reflexivity|]. simpl. repeat split; reflexivity.
Qed.

Lemma __init___returns (d f : list R) (w l th : R) (n : string) (self : t) :
  __init__ d f w l th n = Ok self ->
  List.length d = List.length f /\ w <> 0 /\ ~ l / w < 2.
Proof.
  unfold __init__, py_truediv.
  destruct (List.length d =? List.length f)%nat eqn:Hlen; simpl;
    [|discriminate].
  destruct (Req_dec_T w 0) as [|Hw]; simpl; [discriminate|].
  destruct (Rlt_dec (l / w) 2) as [|Hr]; [discriminate|].
  intros _. apply Nat.eqb_eq in Hlen. auto.
Qed.

Lemma __init___well_formed (d f : list R) (w l th : R) (n : string) (self : t) :
  __init__ d f w l th n = Ok self -> well_formed self.
Proof.
  intros H. destruct (__init___returns _ _ _ _ _ _ _ H) as (Hlen & Hw & Hr).
  destruct (__init___runs d f w l th n Hlen Hw Hr)
    as (s & E & Hd & Hf & HN & Hwd & _ & _ & _ & Ha & _ & _ & _ & Hi & Hs & Ht
        & _ & Hsf & _).
  rewrite H in E. injection E as <-.
  unfold well_formed.
  rewrite Hd, Hf, HN, Hs, Hi, Ht, Hsf, Hwd, Ha.
  unfold _calculate_shear_angle, _calculate_inter_fibre_angle.
  rewrite !length_map, !np_zeros_length.
  repeat split; auto; nra.
Qed.

(** ** The class invariant is kept by the three computing methods *)

Lemma set_shear_torque_well_formed (self : t) (c : list R) :
  well_formed self -> List.length c = number_mesures self ->
  well_formed (set_shear_torque self c).
Proof.
  unfold well_formed. simpl. intuition.
Qed.

Lemma set_shear_force_well_formed (self : t) (v : list R) :
  well_formed self -> List.length v = number_mesures self ->
  well_formed (set_shear_force self v).
Proof.
  unfold well_formed. simpl. intuition.
Qed.

Lemma calculate_shear_torque_well_formed (self self' : t) :
  well_formed self -> calculate_shear_torque self = Ok self' ->
  well_formed self'.
Proof.
  intros WF H. destruct (calculate_shear_torque_returns _ _ H) as (c & -> & Hc).
  now apply set_shear_torque_well_formed.
Qed.

(** What a run of Mode B returns. *)
Lemma calculate_shear_torque_2_runs (self : t) :
  well_formed self ->
  calculate_shear_torque_2 self
  = Ok (set_shear_torque self
          (zip_with (closed_form (length self / width self)
                       (length self) (width self))
             (force self) (shear_angle self))).
Proof.
  intros (_ & Hf & _ & Hs & _ & _ & Hw & _).
  unfold calculate_shear_torque_2, py_truediv.
  destruct (Req_dec_T _ _) as [E|_]; [contradiction|]. cbn [bind].
  rewrite np_binop_same_shape by (now rewrite !length_map). cbn [bind].
  rewrite np_binop_same_shape.
  2:{ rewrite zip_with_length; rewrite !length_map; congruence. }
  cbn [bind]. do 2 f_equal.
  rewrite <- Hs in Hf. clear Hs Hw.
  generalize dependent (force self).
  induction (shear_angle self) as [|a sa IH]; intros [|f_i fs] Hlen;
    simpl in *; try discriminate; auto.
  rewrite IH by lia. reflexivity.
Qed.

Lemma calculate_shear_torque_2_well_formed (self self' : t) :
  well_formed self -> calculate_shear_torque_2 self = Ok self' ->
  well_formed self'.
Proof.
  intros WF H. rewrite (calculate_shear_torque_2_runs _ WF) in H.
  injection H as <-. apply set_shear_torque_well_formed; [assumption|].
  destruct WF as (_ & Hf & _ & Hs & _).
  rewrite zip_with_length; congruence.
Qed.

(** The division step of [calculate_shear_force] on an object whose torque
    array is in place. *)
Lemma shear_force_division (self : t) :
  well_formed self ->
  np_binop Rdiv (shear_torque self) (map cos (shear_angle self))
  = Ok (zip_with Rdiv (shear_torque self) (map cos (shear_angle self))).
Proof.
  intros (_ & _ & _ & Hs & Ht & _).
  apply np_binop_same_shape. rewrite length_map. congruence.
Qed.

Lemma calculate_shear_force_well_formed (self self' : t) :
  well_formed self -> calculate_shear_force self = Ok self' ->
  well_formed self'.
Proof.
  intros WF. unfold calculate_shear_force.
  destruct (shear_torque_computed self); cbn [negb bind].
  - rewrite (shear_force_division _ WF). cbn [bind]. intros [= <-].
    apply set_shear_force_well_formed; [assumption|].
    destruct WF as (_ & _ & _ & Hs & Ht & _).
    rewrite zip_with_length; rewrite ?length_map; congruence.
  - destruct (calculate_shear_torque self) as [s1|] eqn:E; cbn [bind];
      [|discriminate].
    pose proof (calculate_shear_torque_well_formed _ _ WF E) as WF1.
    rewrite (shear_force_division _ WF1). cbn [bind]. intros [= <-].
    apply set_shear_force_well_formed; [assumption|].
    destruct WF1 as (_ & _ & _ & Hs & Ht & _).
    rewrite zip_with_length; rewrite ?length_map; congruence.
Qed.

(** [calculate_shear_force] returns whenever the torque is at hand or Mode A
    can run. *)
Lemma calculate_shear_force_runs (self : t) :
  well_formed self ->
  shear_torque_computed self = true \/ (2 <= number_mesures self)%nat ->
  exists self',
    calculate_shear_force self = Ok self' /\
    shear_force_computed self' = true /\
    List.length (shear_force self') = number_mesures self.
Proof.
  intros WF H. unfold calculate_shear_force.
  destruct (shear_torque_computed self) eqn:Hflag; cbn [negb bind].
  - rewrite (shear_force_division _ WF). cbn [bind].
    eexists. split; [reflexivity|]. cbn. split; [reflexivity|].
    destruct WF as (_ & _ & _ & Hs & Ht & _).
    rewrite zip_with_length; rewrite ?length_map; congruence.
  - destruct H as [H|HN]; [discriminate|].
    destruct (calculate_shear_torque_runs self WF HN)
      as (c & _ & _ & E & Hc & _).
    rewrite E. cbn [bind].
    pose proof (set_shear_torque_well_formed self c WF Hc) as WF1.
    rewrite (shear_force_division _ WF1). cbn [bind].
    eexists. split; [reflexivity|]. cbn. split; [reflexivity|].
    destruct WF as (_ & _ & _ & Hs & _).
    rewrite zip_with_length; rewrite ?length_map; congruence.
Qed.

(** ** Square roots and angles of the sample runs *)

Lemma sqrt2_gt_1 : 1 < sqrt 2.
Proof.
  pose proof Rlt_sqrt2_0. pose proof (sqrt_sqrt 2 ltac:(lra)). nra.
Qed.

(** The arccos argument of the undeformed sample of a 1 by 3 specimen. *)
Lemma rest_argument :
  (0 + (3 - 1)) / (2 * ((3 - 1) / sqrt 2)) = 1 / sqrt 2.
Proof.
  pose proof sqrt2_neq_0. pose proof (sqrt_sqrt 2 ltac:(lra)) as H2.
  replace ((0 + (3 - 1)) / (2 * ((3 - 1) / sqrt 2)))
    with (sqrt 2 * sqrt 2 / (2 * sqrt 2)) by (field; assumption).
  rewrite H2. field. assumption.
Qed.

(** The arccos argument of a 1 by 3 specimen at its travel limit. *)
Lemma limit_argument :
  (closing_displacement + (3 - 1)) / (2 * ((3 - 1) / sqrt 2)) = 1.
Proof.
  unfold closing_displacement. field. apply sqrt2_neq_0.
Qed.

(** The arccos argument of a 1 by 3 specimen at displacement [sqrt 6 - 2]. *)
Lemma middle_argument :
  (sqrt 2 * sqrt 3 - 2 + (3 - 1)) / (2 * ((3 - 1) / sqrt 2)) = sqrt 3 / 2.
Proof.
  pose proof sqrt2_neq_0. pose proof (sqrt_sqrt 2 ltac:(lra)) as H2.
  replace ((sqrt 2 * sqrt 3 - 2 + (3 - 1)) / (2 * ((3 - 1) / sqrt 2)))
    with (sqrt 2 * sqrt 2 * sqrt 3 / 4) by (field; assumption).
  rewrite H2. field.
Qed.

(** The arccos argument of a 1 by 3 specimen at displacement 2. *)
Lemma beyond_argument :
  (2 + (3 - 1)) / (2 * ((3 - 1) / sqrt 2)) = sqrt 2.
Proof. field. apply sqrt2_neq_0. Qed.

Lemma growing_steps_angles :
  _calculate_inter_fibre_angle [0; sqrt 2 * sqrt 3 - 2; closing_displacement]
    (3 - 1) ((3 - 1) / sqrt 2)
  = [PI / 2; PI / 3; 0].
Proof.
  pose proof PI_RGT_0.
  unfold _calculate_inter_fibre_angle, np_arccos. cbn [map].
  rewrite rest_argument, middle_argument, limit_argument.
  rewrite <- cos_PI4, <- cos_PI6, acos_1.
  rewrite !acos_cos by lra.
  f_equal; [lra|]. f_equal; [lra|]. f_equal. lra.
Qed.

Lemma travel_limit_angles :
  _calculate_inter_fibre_angle [0; closing_displacement]
    (3 - 1) ((3 - 1) / sqrt 2)
  = [PI / 2; 0].
Proof.
  pose proof PI_RGT_0.
  unfold _calculate_inter_fibre_angle, np_arccos. cbn [map].
  rewrite rest_argument, limit_argument.
  rewrite <- cos_PI4, acos_1, acos_cos by lra.
  f_equal; [lra|]. f_equal. lra.
Qed.

(** The two interpolation tables of step 2 on shear angles 0, pi/6, pi/2 when
    [c[1] = c_1]: half the last angle is pi/4, between the last two abscissas
    of the whole table and after the last abscissa of the two-point table. *)
Lemma interp_whole_table (c_0 c_1 : R) :
  np_interp ((PI / 2 - 0) / 2) [PI / 2 - PI / 2; PI / 2 - PI / 3; PI / 2 - 0]
    [c_0; c_1; 0]
  = Ok (3 / 4 * c_1).
Proof.
  pose proof PI_RGT_0. unfold np_interp. cbn.
  destruct (Rlt_dec _ _) as [?|_]; [lra|].
  destruct (Rlt_dec _ _) as [?|_]; [lra|].
  destruct (Rle_dec _ _) as [_|?]; [|lra].
  destruct (Rle_dec _ _) as [?|_]; [lra|].
  destruct (Req_dec_T _ _) as [?|_]; [lra|].
  f_equal. field. lra.
Qed.

Lemma interp_two_point_table (c_0 c_1 : R) :
  np_interp ((PI / 2 - 0) / 2) [PI / 2 - PI / 2; PI / 2 - PI / 3] [c_0; c_1]
  = Ok c_1.
Proof.
  pose proof PI_RGT_0. unfold np_interp. cbn.
  destruct (Rlt_dec _ _) as [_|?]; [reflexivity|lra].
Qed.

Lemma growing_steps_runs :
  exists self,
    growing_steps = Ok self /\ well_formed self /\
    number_mesures self = 3%nat /\
    force self = [0; 5; 0] /\
    inter_fiber_angle self = [PI / 2; PI / 3; 0] /\
    shear_angle self = [PI / 2 - PI / 2; PI / 2 - PI / 3; PI / 2 - 0] /\
    semi_sheared_area self = 1 * 1 /\
    sheared_area self = 1 * 3 - 1.5 * (1 * 1) /\
    length_side_pf self = (3 - 1) / sqrt 2.
Proof.
  destruct (__init___runs [0; sqrt 2 * sqrt 3 - 2; closing_displacement]
              [0; 5; 0] 1 3 1 "Generic material")
    as (self & E & _ & Hf & HN & _ & _ & _ & _ & Ha & HA & _ & HL & Hi & Hs
        & _);
    [reflexivity | lra | lra |].
  rewrite growing_steps_angles in Hi. rewrite Hi in Hs.
  exists self. split; [exact E|].
  split; [exact (__init___well_formed _ _ _ _ _ _ _ E)|]. auto 10.
Qed.

Lemma travel_limit_runs :
  exists self,
    travel_limit = Ok self /\ well_formed self /\
    number_mesures self = 2%nat /\
    shear_angle self = [PI / 2 - PI / 2; PI / 2 - 0].
Proof.
  destruct (__init___runs [0; closing_displacement] [0; 1] 1 3 1
              "Generic material")
    as (self & E & _ & _ & HN & _ & _ & _ & _ & _ & _ & _ & _ & Hi & Hs & _);
    [reflexivity | lra | lra |].
  rewrite travel_limit_angles in Hi. rewrite Hi in Hs.
  exists self. split; [exact E|].
  split; [exact (__init___well_formed _ _ _ _ _ _ _ E)|]. auto.
Qed.

(** ** The sample runs are accepted by the constructor *)

Lemma scenario_runs :
  exists self, scenario = Ok self /\ well_formed self /\
               number_mesures self = 4%nat /\
               shear_torque_computed self = false.
Proof.
  destruct (__init___runs [0; 1; 2; 3] [0; 10; 20; 30] 150 450 1 "Flax 250")
    as (self & E & _ & _ & HN & H); [reflexivity | lra | lra |].
  exists self. split; [exact E|].
  split; [exact (__init___well_formed _ _ _ _ _ _ _ E)|].
  split; [exact HN | tauto].
Qed.

Lemma single_sample_runs :
  exists self, single_sample = Ok self /\ number_mesures self = 1%nat.
Proof.
  destruct (__init___runs [0] [0] 150 450 1 "Flax 250")
    as (self & E & _ & _ & HN & _); [reflexivity | lra | lra |].
  exists self. split; [exact E | exact HN].
Qed.

(** ** Mode A: bootstrap, recurrence, short series, frame *)

(** C2.  On a well-formed object with at least two samples Mode A returns, and
    the torque array it stores has [c[0] = 0] and
    [c[1] = 4 L F[1] sin(theta_f[1]/2) / (4 A - a)]. *)
Theorem mode_a_bootstrap (self : t) :
  well_formed self -> (2 <= number_mesures self)%nat ->
  exists self' f_1 a_1,
    calculate_shear_torque self = Ok self' /\
    nth_error (force self) 1 = Some f_1 /\
    nth_error (inter_fiber_angle self) 1 = Some a_1 /\
    nth_error (shear_torque self') 0 = Some 0 /\
    nth_error (shear_torque self') 1
      = Some (4 * length_side_pf self * f_1 * sin (a_1 / 2)
              / (4 * sheared_area self - semi_sheared_area self)).
Proof.
  intros WF HN.
  destruct (calculate_shear_torque_runs self WF HN)
    as (c & f_1 & a_1 & E & _ & Hf & Ha & H0 & H1 & _).
  exists (set_shear_torque self c), f_1, a_1.
  cbn [shear_torque set_shear_torque]. auto 6.
Qed.

Lemma mode_a_bootstrap_witness :
  exists self self',
    scenario = Ok self /\
    well_formed self /\ (2 <= number_mesures self)%nat /\
    calculate_shear_torque self = Ok self' /\
    nth_error (shear_torque self') 0 = Some 0.
Proof.
  destruct scenario_runs as (self & E & WF & HN & _).
  assert (H2 : (2 <= number_mesures self)%nat) by (rewrite HN; lia).
  destruct (mode_a_bootstrap self WF H2)
    as (self' & _ & _ & R & _ & _ & H0 & _).
  exists self, self'. auto 6.
Defined.

(** C1, as stated, fails.  On the 1 by 3 specimen with shear angles 0, pi/6 and
    pi/2 and forces 0, 5, 0, Mode A returns, but its [c[2]] is not the value of
    the recurrence over the table of the first two angles and torques: half the
    last angle, pi/4, lies after pi/6, where the two-point table gives [c[1]],
    while the program interpolates between [(pi/6, c[1])] and [(pi/2, 0)]. *)
Lemma mode_a_prefix_table_counterexample :
  exists self self',
    growing_steps = Ok self /\
    (2 <= number_mesures self)%nat /\
    calculate_shear_torque self = Ok self' /\
    ~ (forall i, (2 <= i < number_mesures self)%nat ->
         prefix_recurrence self (shear_torque self') i).
Proof.
  destruct growing_steps_runs
    as (self & E & WF & HN & Hf & Hi & Hs & Ha & HA & HL).
  assert (H2 : (2 <= number_mesures self)%nat) by (rewrite HN; lia).
  destruct (calculate_shear_torque_runs self WF H2)
    as (c & f_1 & a_1 & R & Hlen & Hf1 & Ha1 & _ & Hc1 & Hrec).
  exists self, (set_shear_torque self c).
  split; [exact E|]. split; [exact H2|]. split; [exact R|].
  cbn [shear_torque set_shear_torque]. intros Hprefix.
  destruct (Hrec 2%nat) as (sa & f_2 & a_2 & st & Hsa & Hf2 & Ha2 & Hst & Hc2);
    [rewrite HN; lia|].
  destruct (Hprefix 2%nat)
    as (sa' & f' & a' & st' & Hsa' & Hf' & Ha' & Hst' & Hc');
    [rewrite HN; lia|].
  rewrite Hsa in Hsa'. rewrite Hf2 in Hf'. rewrite Ha2 in Ha'.
  injection Hsa' as <-. injection Hf' as <-. injection Ha' as <-.
  rewrite Hf in Hf1, Hf2. rewrite Hi in Ha1, Ha2. rewrite Hs in Hsa, Hst, Hst'.
  cbn in Hf1, Hf2, Ha1, Ha2, Hsa.
  injection Hf1 as <-. injection Ha1 as <-.
  injection Hf2 as <-. injection Ha2 as <-. injection Hsa as <-.
  rewrite HN in Hlen, Hst.
  destruct c as [|c_0 [|c_1 [|c_2 [|]]]]; try discriminate Hlen.
  cbn in Hc1, Hst, Hst'. injection Hc1 as Hc1.
  change (np_interp ((PI / 2 - 0) / 2)
            [PI / 2 - PI / 2; PI / 2 - PI / 3; PI / 2 - 0] [c_0; c_1; 0]
          = Ok st) in Hst.
  change (np_interp ((PI / 2 - 0) / 2)
            [PI / 2 - PI / 2; PI / 2 - PI / 3] [c_0; c_1] = Ok st') in Hst'.
  rewrite interp_whole_table in Hst. rewrite interp_two_point_table in Hst'.
  injection Hst as <-. injection Hst' as <-.
  rewrite Hc2 in Hc'. injection Hc' as Heq.
  unfold bootstrap in Hc1. rewrite Ha, HA, HL in *.
  replace (PI / 3 / 2) with (PI / 6) in Hc1 by lra.
  rewrite sin_PI6 in Hc1.
  pose proof Rlt_sqrt2_0 as Hpos.
  replace (4 * (1 * 3 - 1.5 * (1 * 1)) - 1 * 1) with 5 in Hc1 by lra.
  assert (Hc1' : c_1 * sqrt 2 = 4) by (rewrite Hc1; field; lra).
  nra.
Qed.

(** C1, as the program has it.  On a well-formed object with at least two
    samples whose shear angles increase with the sample index, or which has at
    most four samples, Mode A returns, and for every index [i] from 2 to [N - 1]
    the stored torque is
    [c[i] = (1/a) (L F[i] sin(theta_f[i]/2) - 0.5 a semi_torque)], where
    [semi_torque] is [np.interp] at [theta_s[i]/2] over the whole arrays in
    their state at step [i]: all [N] shear angles as abscissas, and as ordinates
    [c[0..i-1]] followed by zeros at the indices [i..N-1]. *)
Theorem mode_a_recurrence_over_current_arrays (self : t) :
  well_formed self -> (2 <= number_mesures self)%nat ->
  StronglySorted Rlt (shear_angle self) \/ (number_mesures self <= 4)%nat ->
  exists self',
    calculate_shear_torque self = Ok self' /\
    forall i, (2 <= i < number_mesures self)%nat ->
      current_recurrence self (shear_torque self') i.
Proof.
  intros WF HN _.
  destruct (calculate_shear_torque_runs self WF HN)
    as (c & _ & _ & E & _ & _ & _ & _ & _ & Hrec).
  exists (set_shear_torque self c). split; [exact E|]. exact Hrec.
Qed.

Lemma mode_a_recurrence_witness :
  exists self self',
    growing_steps = Ok self /\
    well_formed self /\ (2 <= number_mesures self)%nat /\
    StronglySorted Rlt (shear_angle self) /\
    (number_mesures self <= 4)%nat /\
    calculate_shear_torque self = Ok self' /\
    current_recurrence self (shear_torque self') 2.
Proof.
  destruct growing_steps_runs as (self & E & WF & HN & _ & _ & Hs & _).
  assert (H2 : (2 <= number_mesures self)%nat) by (rewrite HN; lia).
  assert (H4 : (number_mesures self <= 4)%nat) by (rewrite HN; lia).
  assert (Hsorted : StronglySorted Rlt (shear_angle self)).
  { rewrite Hs. pose proof PI_RGT_0. repeat constructor; lra. }
  destruct (mode_a_recurrence_over_current_arrays self WF H2
              (or_introl Hsorted)) as (self' & R & H).
  exists self, self'. repeat (split; [assumption|]).
  apply H. rewrite HN. lia.
Defined.

(** X5. Where the wording of the specification and the program agree: when the
    shear angles increase with the sample index and half the shear angle of step
    [i] is not after the shear angle of step [i - 1], the search stays within
    the first [i] points and the table of the first [i] angles and torques gives
    the same [c[i]]. *)
Lemma mode_a_recurrence_over_prefix (self : t) :
  well_formed self -> (2 <= number_mesures self)%nat ->
  StronglySorted Rlt (shear_angle self) ->
  exists self',
    calculate_shear_torque self = Ok self' /\
    forall i sa_i sa_prev,
      (2 <= i < number_mesures self)%nat ->
      nth_error (shear_angle self) i = Some sa_i ->
      nth_error (shear_angle self) (i - 1) = Some sa_prev ->
      sa_i / 2 <= sa_prev ->
      prefix_recurrence self (shear_torque self') i.
Proof.
  intros WF HN Hsorted.
  destruct (calculate_shear_torque_runs self WF HN)
    as (c & _ & _ & E & Hlen & _ & _ & _ & _ & Hrec).
  exists (set_shear_torque self c). split; [exact E|].
  cbn [shear_torque set_shear_torque].
  intros i sa_i sa_prev Hi Hsi Hprev Hhalf.
  destruct (Hrec i Hi) as (sa_i' & f_i & a_i & st & Hsi' & Hf & Ha & Hst & Hc).
  rewrite Hsi in Hsi'. injection Hsi' as <-.
  exists sa_i, f_i, a_i, st. repeat split; auto.
  rewrite <- Hst. pose proof WF as (_ & _ & _ & Hs & _).
  assert (Hcut : firstn i (firstn i c ++ repeat 0 (number_mesures self - i))
                 = firstn i c).
  { rewrite firstn_app, firstn_firstn, length_firstn.
    replace (i - Nat.min i (List.length c))%nat with 0%nat by lia.
    rewrite Nat.min_id, firstn_O. apply app_nil_r. }
  rewrite <- Hcut at 1. apply np_interp_firstn.
  - exact Hsorted.
  - rewrite length_app, length_firstn, repeat_length. lia.
  - lia.
  - intros p Hp. rewrite Hprev in Hp. injection Hp as <-. exact Hhalf.
Qed.

(** C6.  On fewer than two samples Mode A fails: the bootstrap assignment to
    [c[1]] raises [IndexError], whatever else the object holds. *)
Theorem mode_a_needs_two_samples (self : t) :
  (number_mesures self < 2)%nat ->
  calculate_shear_torque self = Raise IndexError.
Proof.
  intros HN. unfold calculate_shear_torque.
  destruct (getitem_cases (force self) 1) as [->|[f_1 ->]]; [reflexivity|].
  cbn [bind].
  destruct (getitem_cases (inter_fiber_angle self) 1) as [->|[a_1 ->]];
    [reflexivity|].
  cbn [bind]. rewrite setitem_out_of_range; [reflexivity|].
  rewrite np_zeros_length. lia.
Qed.

Lemma mode_a_needs_two_samples_witness :
  exists self,
    single_sample = Ok self /\
    (number_mesures self < 2)%nat /\
    calculate_shear_torque self = Raise IndexError.
Proof.
  destruct single_sample_runs as (self & E & HN).
  assert (H : (number_mesures self < 2)%nat) by (rewrite HN; lia).
  exists self. split; [exact E|]. split; [exact H|].
  exact (mode_a_needs_two_samples self H).
Defined.

(** C10.  Whenever Mode A returns, the object it returns differs from the one
    it was given in the torque array and its flag only: the displacement,
    force and angle arrays, the shear force and its flag and every geometry
    constant are the same, the flag is set, and the torque array has
    [number_mesures] entries.  On a well-formed object with at least two
    samples it does return. *)
Theorem mode_a_frame (self : t) :
  (forall self',
     calculate_shear_torque self = Ok self' ->
     same_inputs self self' /\
     shear_torque_computed self' = true /\
     List.length (shear_torque self') = number_mesures self) /\
  (well_formed self -> (2 <= number_mesures self)%nat ->
   exists self', calculate_shear_torque self = Ok self').
Proof.
  split.
  - intros self' H.
    destruct (calculate_shear_torque_returns _ _ H) as (c & -> & Hc).
    unfold same_inputs. cbn. repeat split; auto.
  - intros WF HN.
    destruct (calculate_shear_torque_runs self WF HN) as (c & _ & _ & E & _).
    eauto.
Qed.

(** ** Mode B *)

(** C8.  On a well-formed object Mode B returns, the torque array it stores
    has [number_mesures] entries, and entry [i] is
    [((H/W - 1) F[i] (cos(theta_s[i]/2) - sin(theta_s[i]/2))) / (2H - 3W)]:
    a function of [force[i]] and [shear_angle[i]] alone, so two objects of the
    same length and width that agree at index [i] get the same entry [i]. *)
Theorem mode_b_closed_form (self : t) :
  well_formed self ->
  exists self',
    calculate_shear_torque_2 self = Ok self' /\
    shear_torque_computed self' = true /\
    List.length (shear_torque self') = number_mesures self /\
    (forall i f_i sa_i,
       nth_error (force self) i = Some f_i ->
       nth_error (shear_angle self) i = Some sa_i ->
       nth_error (shear_torque self') i
       = Some ((length self / width self - 1) * f_i
               * (cos (sa_i / 2) - sin (sa_i / 2))
               / (2 * length self - 3 * width self))) /\
    (forall other other' i f_i sa_i,
       well_formed other ->
       length other = length self -> width other = width self ->
       nth_error (force self) i = Some f_i ->
       nth_error (force other) i = Some f_i ->
       nth_error (shear_angle self) i = Some sa_i ->
       nth_error (shear_angle other) i = Some sa_i ->
       calculate_shear_torque_2 other = Ok other' ->
       nth_error (shear_torque other') i = nth_error (shear_torque self') i).
Proof.
  intros WF. eexists. split; [apply (calculate_shear_torque_2_runs _ WF)|].
  cbn [shear_torque shear_torque_computed set_shear_torque].
  split; [reflexivity|]. split; [|split].
  - destruct WF as (_ & Hf & _ & Hs & _). rewrite zip_with_length; congruence.
  - intros i f_i sa_i Hf Hs. now rewrite (zip_with_nth _ _ _ _ _ _ Hf Hs).
  - intros other other' i f_i sa_i WF' HH HW Hf Hf' Hs Hs' E.
    rewrite (calculate_shear_torque_2_runs _ WF') in E. injection E as <-.
    cbn [shear_torque set_shear_torque]. rewrite HH, HW.
    rewrite (zip_with_nth _ _ _ _ _ _ Hf Hs).
    now apply zip_with_nth.
Qed.

Lemma mode_b_closed_form_witness :
  exists self self',
    scenario = Ok self /\ well_formed self /\
    calculate_shear_torque_2 self = Ok self' /\
    List.length (shear_torque self') = number_mesures self.
Proof.
  destruct scenario_runs as (self & E & WF & _).
  destruct (mode_b_closed_form self WF) as (self' & R & _ & Hlen & _).
  exists self, self'. auto.
Defined.

(** ** The shear force *)

(** C7.  On a well-formed object whose torque is computed,
    [calculate_shear_force] returns, keeps the torque array, and stores
    [shear_force[i] = shear_torque[i] / cos(shear_angle[i])] at each of the
    [number_mesures] indices.  When the torque is not computed it first runs
    Mode A: it fails as Mode A fails, and otherwise the torque array of the
    result is the one Mode A returns and the shear force is derived from it. *)
Theorem shear_force_contract (self : t) :
  well_formed self ->
  (shear_torque_computed self = true ->
   exists self',
     calculate_shear_force self = Ok self' /\
     shear_torque self' = shear_torque self /\
     shear_force_computed self' = true /\
     List.length (shear_force self') = number_mesures self /\
     forall i c_i sa_i,
       nth_error (shear_torque self) i = Some c_i ->
       nth_error (shear_angle self) i = Some sa_i ->
       nth_error (shear_force self') i = Some (c_i / cos sa_i)) /\
  (shear_torque_computed self = false ->
   (forall e, calculate_shear_torque self = Raise e ->
              calculate_shear_force self = Raise e) /\
   (forall mode_a,
      calculate_shear_torque self = Ok mode_a ->
      exists self',
        calculate_shear_force self = Ok self' /\
        shear_torque self' = shear_torque mode_a /\
        shear_torque_computed self' = true /\
        shear_force_computed self' = true /\
        List.length (shear_force self') = number_mesures self /\
        forall i c_i sa_i,
          nth_error (shear_torque mode_a) i = Some c_i ->
          nth_error (shear_angle self) i = Some sa_i ->
          nth_error (shear_force self') i = Some (c_i / cos sa_i))).
Proof.
  intros WF. split; intros Hflag.
  - unfold calculate_shear_force. rewrite Hflag. cbn [negb bind].
    rewrite (shear_force_division _ WF). cbn [bind].
    eexists. split; [reflexivity|]. cbn. repeat split.
    + destruct WF as (_ & _ & _ & Hs & Ht & _).
      rewrite zip_with_length; rewrite ?length_map; congruence.
    + intros i c_i sa_i Hc Hs. apply zip_with_nth; [assumption|].
      now apply map_nth_error.
  - split.
    + intros e E. unfold calculate_shear_force. rewrite Hflag, E. reflexivity.
    + intros mode_a E. unfold calculate_shear_force. rewrite Hflag, E.
      cbn [negb bind].
      pose proof (calculate_shear_torque_well_formed _ _ WF E) as WF1.
      rewrite (shear_force_division _ WF1). cbn [bind].
      destruct (calculate_shear_torque_returns _ _ E) as (c & -> & Hc).
      eexists. split; [reflexivity|]. cbn. repeat split.
      * destruct WF as (_ & _ & _ & Hs & _).
        rewrite zip_with_length; rewrite ?length_map; congruence.
      * intros i c_i sa_i Hci Hs. apply zip_with_nth; [assumption|].
        now apply map_nth_error.
Qed.

Lemma shear_force_contract_witness :
  exists self mode_a self',
    scenario = Ok self /\ well_formed self /\
    shear_torque_computed self = false /\
    calculate_shear_torque self = Ok mode_a /\
    calculate_shear_force self = Ok self' /\
    shear_torque self' = shear_torque mode_a.
Proof.
  destruct scenario_runs as (self & E & WF & HN & Hflag).
  destruct (calculate_shear_torque_runs self WF) as (c & _ & _ & R & _);
    [rewrite HN; lia|].
  destruct (shear_force_contract self WF) as (_ & H).
  destruct (H Hflag) as (_ & H').
  destruct (H' _ R) as (self' & F & Ht & _).
  exists self, (set_shear_torque self c), self'. auto 7.
Defined.

(** ** Angles *)

(** C9.  For every displacement sequence [d] and geometry the constructor
    accepts, the object is built on that sequence and that geometry
    ([displacement = d], [diagonal_pf = l - w],
    [length_side_pf = (l - w) / sqrt 2]), both angle arrays have one entry per
    entry of [d], and at every index [i] of [d] whose arccos argument is in
    [-1, 1], [inter_fiber_angle[i] = 2 arccos((d[i] + diagonal_pf) /
    (2 length_side_pf))], [shear_angle[i] = pi/2 - inter_fiber_angle[i]], and
    the two add up to pi/2. *)
Theorem angle_kinematics (d f : list R) (w l th : R) (n : string) :
  List.length d = List.length f -> w <> 0 -> ~ l / w < 2 ->
  exists self,
    __init__ d f w l th n = Ok self /\
    displacement self = d /\
    number_mesures self = List.length d /\
    diagonal_pf self = l - w /\
    length_side_pf self = (l - w) / sqrt 2 /\
    List.length (inter_fiber_angle self) = List.length d /\
    List.length (shear_angle self) = List.length d /\
    forall i d_i,
      nth_error d i = Some d_i ->
      -1 <= (d_i + (l - w)) / (2 * ((l - w) / sqrt 2)) <= 1 ->
      exists theta_f theta_s,
        nth_error (inter_fiber_angle self) i = Some theta_f /\
        nth_error (shear_angle self) i = Some theta_s /\
        theta_f = 2 * acos ((d_i + (l - w)) / (2 * ((l - w) / sqrt 2))) /\
        theta_s = PI / 2 - theta_f /\
        theta_s + theta_f = PI / 2.
Proof.
  intros Hlen Hw Hr.
  destruct (__init___runs d f w l th n Hlen Hw Hr)
    as (self & E & Hd & _ & HN & _ & _ & _ & _ & _ & _ & HD & HL & Hi & Hs & _).
  exists self. split; [exact E|]. split; [exact Hd|]. split; [exact HN|].
  split; [exact HD|]. split; [exact HL|].
  rewrite Hs, Hi.
  unfold _calculate_shear_angle, _calculate_inter_fibre_angle, np_arccos.
  rewrite !length_map. split; [reflexivity|]. split; [reflexivity|].
  intros i d_i Hdi _.
  exists (2 * acos ((d_i + (l - w)) / (2 * ((l - w) / sqrt 2)))).
  eexists.
  split; [|split; [|split; [reflexivity | split; [reflexivity | lra]]]].
  - now rewrite (map_nth_error _ _ _ Hdi).
  - apply map_nth_error. now rewrite (map_nth_error _ _ _ Hdi).
Qed.

Lemma angle_kinematics_witness :
  exists self theta_f theta_s,
    scenario = Ok self /\
    displacement self = [0; 1; 2; 3] /\
    nth_error (inter_fiber_angle self) 1 = Some theta_f /\
    nth_error (shear_angle self) 1 = Some theta_s /\
    theta_f = 2 * acos ((1 + (450 - 150)) / (2 * ((450 - 150) / sqrt 2))) /\
    theta_s + theta_f = PI / 2.
Proof.
  destruct (angle_kinematics [0; 1; 2; 3] [0; 10; 20; 30] 150 450 1 "Flax 250")
    as (self & E & Hd & _ & _ & _ & _ & _ & H); [reflexivity | lra | lra |].
  destruct (H 1%nat 1) as (theta_f & theta_s & Hf & Hs & Hv & _ & Hsum).
  - reflexivity.
  - pose proof sqrt2_gt_1 as Hs2. pose proof (sqrt_sqrt 2 ltac:(lra)).
    replace ((1 + (450 - 150)) / (2 * ((450 - 150) / sqrt 2)))
      with (301 * sqrt 2 / 600) by (field; lra).
    split; nra.
  - exists self, theta_f, theta_s. auto 7.
Defined.

(** C3, as stated, fails.  On the 1 by 3 specimen the displacement 2 gives the
    arccos argument [sqrt 2 > 1], and the constructor returns the object all
    the same. *)
Lemma angle_domain_counterexample :
  exists self d_i,
    beyond_travel = Ok self /\
    nth_error (displacement self) 1 = Some d_i /\
    1 < (d_i + diagonal_pf self) / (2 * length_side_pf self).
Proof.
  destruct (__init___runs [0; 2] [0; 1] 1 3 1 "Generic material")
    as (self & E & Hd & _ & _ & _ & _ & _ & _ & _ & _ & HD & HL & _);
    [reflexivity | lra | lra |].
  exists self, 2. split; [exact E|]. split; [now rewrite Hd|].
  rewrite HD, HL, beyond_argument. exact sqrt2_gt_1.
Qed.

(** C3, as the program has it.  An arccos argument outside [-1, 1] raises
    nothing: whenever the arrays have equal lengths, the width is not zero and
    the ratio is at least 2, the constructor returns the object, and both
    angle arrays have one entry for every displacement sample, the offending
    one included. *)
Theorem angle_domain_unchecked (d f : list R) (w l th : R) (n : string)
    (i : nat) (d_i : R) :
  List.length d = List.length f -> w <> 0 -> ~ l / w < 2 ->
  nth_error d i = Some d_i ->
  ~ (-1 <= (d_i + (l - w)) / (2 * ((l - w) / sqrt 2)) <= 1) ->
  exists self,
    __init__ d f w l th n = Ok self /\
    diagonal_pf self = l - w /\
    length_side_pf self = (l - w) / sqrt 2 /\
    List.length (inter_fiber_angle self) = List.length d /\
    List.length (shear_angle self) = List.length d /\
    (i < List.length (inter_fiber_angle self))%nat.
Proof.
  intros Hlen Hw Hr Hdi _.
  destruct (__init___runs d f w l th n Hlen Hw Hr)
    as (self & E & _ & _ & _ & _ & _ & _ & _ & _ & _ & HD & HL & Hi & Hs & _).
  exists self. rewrite Hs, Hi.
  unfold _calculate_shear_angle, _calculate_inter_fibre_angle.
  rewrite !length_map. repeat split; auto.
  apply nth_error_Some. congruence.
Qed.

Lemma angle_domain_unchecked_witness :
  exists self,
    beyond_travel = Ok self /\
    List.length (inter_fiber_angle self) = 2%nat.
Proof.
  destruct (angle_domain_unchecked [0; 2] [0; 1] 1 3 1 "Generic material"
              1%nat 2)
    as (self & E & _ & _ & Hlen & _);
    [reflexivity | lra | lra | reflexivity | |].
  - rewrite beyond_argument. pose proof sqrt2_gt_1. lra.
  - exists self. auto.
Defined.

(** ** Validation in the constructor *)

(** X4. With arrays of equal length, a zero width makes [length / width] raise
    [ZeroDivisionError] before the ratio is tested. *)
Lemma __init___zero_width (d f : list R) (w l th : R) (n : string) :
  __init__ d f w l th n = Raise ZeroDivisionError
  <-> List.length d = List.length f /\ w = 0.
Proof.
  unfold __init__, py_truediv.
  destruct (List.length d =? List.length f)%nat eqn:Hlen; cbn [negb].
  - apply Nat.eqb_eq in Hlen.
    destruct (Req_dec_T w 0) as [Hw|Hw]; cbn [bind].
    + tauto.
    + destruct (Rlt_dec (l / w) 2); split; try discriminate; tauto.
  - apply Nat.eqb_neq in Hlen. split; [discriminate | tauto].
Qed.

(** C5, as stated, fails.  A specimen declared with thickness -1 is built. *)
Lemma construction_counterexample :
  exists self,
    negative_thickness = Ok self /\ thickness self = -1 /\ thickness self <= 0.
Proof.
  destruct (__init___runs [0; 1] [0; 10] 150 450 (-1) "Generic material")
    as (self & E & _ & _ & _ & _ & _ & Ht & _); [reflexivity | lra | lra |].
  exists self. rewrite Ht. split; [exact E|]. split; lra.
Qed.

(** C5, as the program has it, for real (finite) width, length and
    thickness of any sign.  The constructor raises [ValueError] exactly when the
    two arrays differ in length, or the width is not zero and
    [length / width < 2]; thickness is not looked at.  Every object it returns
    has [length / width >= 2], and a ratio of 1.9 is refused. *)
Theorem construction_validation (d f : list R) (w l th : R) (n : string) :
  (__init__ d f w l th n = Raise ValueError
   <-> List.length d <> List.length f \/ (w <> 0 /\ l / w < 2)) /\
  (forall th', __init__ d f w l th' n = Raise ValueError
               <-> __init__ d f w l th n = Raise ValueError) /\
  (forall self, __init__ d f w l th n = Ok self ->
                List.length (displacement self) = List.length (force self) /\
                width self <> 0 /\
                2 <= length self / width self /\
                ratio self = length self / width self) /\
  (w <> 0 -> l / w = 1.9 -> __init__ d f w l th n = Raise ValueError).
Proof.
  assert (Hiff : forall t0, __init__ d f w l t0 n = Raise ValueError
            <-> List.length d <> List.length f \/ (w <> 0 /\ l / w < 2)).
  { intros t0. unfold __init__, py_truediv.
    destruct (List.length d =? List.length f)%nat eqn:Hlen; cbn [negb].
    - apply Nat.eqb_eq in Hlen.
      destruct (Req_dec_T w 0) as [Hw|Hw]; cbn [bind].
      + split; [discriminate | tauto].
      + destruct (Rlt_dec (l / w) 2); split; try discriminate; tauto.
    - apply Nat.eqb_neq in Hlen. tauto. }
  split; [apply Hiff|]. split; [|split].
  - intros th'. rewrite (Hiff th'), (Hiff th). tauto.
  - intros self E.
    destruct (__init___returns _ _ _ _ _ _ _ E) as (Hlen & Hw & Hr).
    destruct (__init___runs d f w l th n Hlen Hw Hr)
      as (s & E' & Hd & Hf & _ & Hwd & Hl & _ & Hra & _).
    rewrite E in E'. injection E' as <-.
    rewrite Hd, Hf, Hwd, Hl, Hra. repeat split; auto. lra.
  - intros Hw Hr. apply Hiff. right. split; [assumption|]. lra.
Qed.

(** ** The shear force at a right shear angle *)

(** C4, as stated, fails.  The second sample of the 1 by 3 specimen at its
    travel limit has shear angle pi/2, whose cosine is 0, and
    [calculate_shear_force] returns an object all the same. *)
Lemma shear_force_singularity_counterexample :
  exists self self',
    travel_limit = Ok self /\
    nth_error (shear_angle self) 1 = Some (PI / 2) /\
    cos (PI / 2) = 0 /\
    calculate_shear_force self = Ok self'.
Proof.
  destruct travel_limit_runs as (self & E & WF & HN & Hs).
  destruct (calculate_shear_force_runs self WF) as (self' & F & _);
    [right; rewrite HN; lia|].
  exists self, self'. split; [exact E|].
  split; [|split; [apply cos_PI2 | exact F]].
  rewrite Hs. cbn. f_equal. lra.
Qed.

(** C4, as the program has it.  A shear angle of pi/2 at some index raises
    nothing: on a well-formed object whose torque is computed, or that has the
    two samples Mode A needs, [calculate_shear_force] returns, sets its flag,
    and stores a shear-force array of [number_mesures] entries, the one at that
    index included. *)
Theorem shear_force_singularity_unchecked (self : t) (i : nat) :
  well_formed self ->
  nth_error (shear_angle self) i = Some (PI / 2) ->
  shear_torque_computed self = true \/ (2 <= number_mesures self)%nat ->
  exists self',
    calculate_shear_force self = Ok self' /\
    shear_force_computed self' = true /\
    List.length (shear_force self') = number_mesures self /\
    (i < List.length (shear_force self'))%nat.
Proof.
  intros WF Hi Hready.
  destruct (calculate_shear_force_runs self WF Hready)
    as (self' & F & Hflag & Hlen).
  exists self'. repeat split; auto.
  rewrite Hlen. destruct WF as (_ & _ & _ & Hs & _). rewrite <- Hs.
  apply nth_error_Some. congruence.
Qed.

Lemma shear_force_singularity_unchecked_witness :
  exists self self',
    travel_limit = Ok self /\
    well_formed self /\
    nth_error (shear_angle self) 1 = Some (PI / 2) /\
    calculate_shear_force self = Ok self' /\
    List.length (shear_force self') = 2%nat.
Proof.
  destruct travel_limit_runs as (self & E & WF & HN & Hs).
  assert (Hi : nth_error (shear_angle self) 1 = Some (PI / 2)).
  { rewrite Hs. cbn. f_equal. lra. }
  destruct (shear_force_singularity_unchecked self 1 WF Hi)
    as (self' & F & _ & Hlen & _); [right; rewrite HN; lia|].
  exists self, self'. rewrite <- HN. auto 6.
Defined.

(** * Further properties of the class and of the script *)

(** ** Geometry of a constructed specimen *)

Lemma accepted_diagonal (w l : R) :
  w <> 0 -> ~ l / w < 2 -> l - w <> 0.
Proof.
  intros Hw Hr H0. assert (Hl : l = w) by lra.
  apply Hr. rewrite Hl. unfold Rdiv. rewrite Rinv_r by assumption. lra.
Qed.

Lemma rest_inter_fiber_angle (D : R) :
  D <> 0 -> 2 * np_arccos ((0 + D) / (2 * (D / sqrt 2))) = PI / 2.
Proof.
  intros HD. pose proof sqrt2_neq_0. pose proof (sqrt_sqrt 2 ltac:(lra)) as H2.
  replace ((0 + D) / (2 * (D / sqrt 2)))
    with (sqrt 2 * sqrt 2 / (2 * sqrt 2)) by (field; split; assumption).
  rewrite H2. replace (2 / (2 * sqrt 2)) with (/ sqrt 2) by (field; assumption).
  unfold np_arccos. rewrite acos_inv_sqrt2. lra.
Qed.

(** X1. Every specimen the constructor returns has positive semi-sheared and
    sheared areas, a positive bootstrap denominator [4 A - a], and non-zero
    [2 H - 3 W], [diagonal_pf] and [length_side_pf]: apart from the cosine in
    the shear force, no formula of the class divides by zero on it. *)
Theorem constructed_geometry (d f : list R) (w l th : R) (n : string)
    (self : t) :
  __init__ d f w l th n = Ok self ->
  0 < semi_sheared_area self /\
  0 < sheared_area self /\
  0 < 4 * sheared_area self - semi_sheared_area self /\
  2 * length self - 3 * width self <> 0 /\
  diagonal_pf self <> 0 /\
  length_side_pf self <> 0.
Proof.
  intros E. destruct (__init___returns _ _ _ _ _ _ _ E) as (Hlen & Hw & Hr).
  destruct (__init___runs d f w l th n Hlen Hw Hr)
    as (s & E' & _ & _ & _ & Hwd & Hl & _ & _ & Ha & HA & HD & HL & _).
  rewrite E in E'. injection E' as <-.
  rewrite Ha, HA, HD, HL, Hwd, Hl. clear Ha HA HD HL Hwd Hl E.
  set (r := l / w) in *.
  assert (Hl : l = r * w) by (unfold r; field; assumption).
  assert (Hr2 : 2 <= r) by lra.
  assert (Hww : 0 < w * w) by nra.
  assert (Hs2 : 0 < sqrt 2) by exact Rlt_sqrt2_0.
  rewrite Hl.
  assert (HD : r * w - w <> 0).
  { intros H0. assert (w * (r - 1) = 0) by lra.
    apply Rmult_integral in H as [H|H]; [contradiction | lra]. }
  repeat split.
  - exact Hww.
  - replace (w * (r * w) - 1.5 * (w * w)) with ((w * w) * (r - 1.5)) by lra.
    apply Rmult_lt_0_compat; lra.
  - replace (4 * (w * (r * w) - 1.5 * (w * w)) - w * w)
      with ((w * w) * (4 * r - 7)) by lra.
    apply Rmult_lt_0_compat; lra.
  - intros H0. assert (w * (2 * r - 3) = 0) by lra.
    apply Rmult_integral in H as [H|H]; [contradiction | lra].
  - exact HD.
  - intros H0. apply HD.
    apply (Rmult_eq_compat_r (sqrt 2)) in H0.
    unfold Rdiv in H0. rewrite Rmult_assoc, Rinv_l, Rmult_1_r, Rmult_0_l in H0;
      [exact H0 | lra].
Qed.

Lemma constructed_geometry_witness :
  exists self,
    scenario = Ok self /\
    0 < 4 * sheared_area self - semi_sheared_area self.
Proof.
  destruct scenario_runs as (self & E & _).
  exists self. split; [exact E|].
  exact (proj1 (proj2 (proj2 (constructed_geometry _ _ _ _ _ _ _ E)))).
Defined.

(** X2. A sample with no displacement is at rest: whatever the accepted
    geometry, its inter-fiber angle is pi/2 and its shear angle is 0. *)
Theorem rest_sample_angles (d f : list R) (w l th : R) (n : string)
    (self : t) (i : nat) :
  __init__ d f w l th n = Ok self ->
  nth_error (displacement self) i = Some 0 ->
  nth_error (inter_fiber_angle self) i = Some (PI / 2) /\
  nth_error (shear_angle self) i = Some 0.
Proof.
  intros E Hi.
  destruct (__init___returns _ _ _ _ _ _ _ E) as (Hlen & Hw & Hr).
  destruct (__init___runs d f w l th n Hlen Hw Hr)
    as (s & E' & Hd & _ & _ & _ & _ & _ & _ & _ & _ & _ & _ & Hia & Hsa & _).
  rewrite E in E'. injection E' as <-. rewrite Hd in Hi.
  assert (Hf : nth_error (inter_fiber_angle self) i = Some (PI / 2)).
  { rewrite Hia. unfold _calculate_inter_fibre_angle.
    rewrite (map_nth_error _ _ _ Hi). f_equal.
    apply rest_inter_fiber_angle. now apply accepted_diagonal. }
  split; [exact Hf|].
  rewrite Hsa. unfold _calculate_shear_angle.
  rewrite (map_nth_error _ _ _ Hf). f_equal. lra.
Qed.

Lemma rest_sample_angles_witness :
  exists self,
    scenario = Ok self /\ nth_error (shear_angle self) 0 = Some 0.
Proof.
  destruct (__init___runs [0; 1; 2; 3] [0; 10; 20; 30] 150 450 1 "Flax 250")
    as (self & E & Hd & _); [reflexivity | lra | lra |].
  exists self. split; [exact E|].
  apply (rest_sample_angles _ _ _ _ _ _ _ 0%nat E). now rewrite Hd.
Defined.

Lemma acos_decreasing (a b : R) :
  -1 <= a -> a < b -> b <= 1 -> acos b < acos a.
Proof.
  intros Ha Hab Hb.
  pose proof (acos_bound a). pose proof (acos_bound b).
  apply cos_decreasing_0; try tauto.
  rewrite !cos_acos by lra. exact Hab.
Qed.

(** X3. On a specimen of positive width the shear angle grows with the
    displacement: of two samples whose arccos arguments are in [-1, 1], the one
    displaced further has the larger shear angle. *)
Theorem shear_angle_increases (d f : list R) (w l th : R) (n : string)
    (self : t) (i j : nat) (d_i d_j theta_i theta_j : R) :
  __init__ d f w l th n = Ok self ->
  0 < width self ->
  nth_error (displacement self) i = Some d_i ->
  nth_error (displacement self) j = Some d_j ->
  -1 <= (d_i + diagonal_pf self) / (2 * length_side_pf self) ->
  (d_j + diagonal_pf self) / (2 * length_side_pf self) <= 1 ->
  d_i < d_j ->
  nth_error (shear_angle self) i = Some theta_i ->
  nth_error (shear_angle self) j = Some theta_j ->
  theta_i < theta_j.
Proof.
  intros E Hpos Hi Hj Hlo Hhi Hlt Hti Htj.
  destruct (__init___returns _ _ _ _ _ _ _ E) as (Hlen & Hw & Hr).
  destruct (__init___runs d f w l th n Hlen Hw Hr)
    as (s & E' & Hd & _ & _ & Hwd & _ & _ & _ & _ & _ & HD & HL & Hia & Hsa
        & _).
  rewrite E in E'. injection E' as <-.
  rewrite Hd in Hi, Hj. rewrite Hwd in Hpos. rewrite HD, HL in Hlo, Hhi.
  rewrite Hsa, Hia in Hti, Htj.
  unfold _calculate_shear_angle, _calculate_inter_fibre_angle, np_arccos
    in Hti, Htj.
  rewrite (map_nth_error _ _ _ (map_nth_error _ _ _ Hi)) in Hti.
  rewrite (map_nth_error _ _ _ (map_nth_error _ _ _ Hj)) in Htj.
  injection Hti as <-. injection Htj as <-.
  assert (Hside : 0 < 2 * ((l - w) / sqrt 2)).
  { assert (Hl : l = l / w * w) by (field; assumption).
    assert (0 < l - w) by nra.
    pose proof Rlt_sqrt2_0.
    apply Rmult_lt_0_compat; [lra|]. now apply Rdiv_lt_0_compat. }
  assert (Hargs : (d_i + (l - w)) / (2 * ((l - w) / sqrt 2))
                  < (d_j + (l - w)) / (2 * ((l - w) / sqrt 2))).
  { unfold Rdiv at 1 3. apply Rmult_lt_compat_r; [|lra].
    now apply Rinv_0_lt_compat. }
  pose proof (acos_decreasing _ _ Hlo Hargs Hhi). lra.
Qed.

Lemma shear_angle_increases_witness :
  exists self theta_0 theta_1,
    scenario = Ok self /\
    nth_error (shear_angle self) 0 = Some theta_0 /\
    nth_error (shear_angle self) 1 = Some theta_1 /\
    theta_0 < theta_1.
Proof.
  destruct (__init___runs [0; 1; 2; 3] [0; 10; 20; 30] 150 450 1 "Flax 250")
    as (self & E & Hd & _ & _ & Hw & _ & _ & _ & _ & _ & HD & HL & Hia & Hsa
        & _);
    [reflexivity | lra | lra |].
  pose proof sqrt2_gt_1 as Hs2. pose proof (sqrt_sqrt 2 ltac:(lra)) as H2.
  destruct (nth_error (shear_angle self) 0) as [theta_0|] eqn:E0.
  2:{ rewrite Hsa, Hia in E0. discriminate. }
  destruct (nth_error (shear_angle self) 1) as [theta_1|] eqn:E1.
  2:{ rewrite Hsa, Hia in E1. discriminate. }
  exists self, theta_0, theta_1. repeat split; auto.
  apply (shear_angle_increases _ _ _ _ _ _ self 0%nat 1%nat 0 1 _ _ E);
    try assumption.
  - rewrite Hw. lra.
  - now rewrite Hd.
  - now rewrite Hd.
  - rewrite HD, HL.
    replace ((0 + (450 - 150)) / (2 * ((450 - 150) / sqrt 2)))
      with (sqrt 2 / 2) by (field; lra).
    lra.
  - rewrite HD, HL.
    replace ((1 + (450 - 150)) / (2 * ((450 - 150) / sqrt 2)))
      with (301 * sqrt 2 / 600) by (field; lra).
    nra.
  - lra.
Defined.

(** ** Recomputing *)

Lemma torque_loop_ignores_torque (self : t) (c0 : list R)
    (indices : list nat) (c : list R) :
  torque_loop (set_shear_torque self c0) indices c = torque_loop self indices c.
Proof.
  revert c. induction indices as [|i rest IH]; intros c; [reflexivity|].
  cbn [torque_loop].
  change (torque_step (set_shear_torque self c0) c i)
    with (torque_step self c i).
  destruct (torque_step self c i); cbn [bind]; [apply IH | reflexivity].
Qed.

Lemma calculate_shear_torque_ignores_torque (self : t) (c0 : list R) :
  calculate_shear_torque (set_shear_torque self c0)
  = calculate_shear_torque self.
Proof.
  unfold calculate_shear_torque.
  cbn [number_mesures force inter_fiber_angle set_shear_torque].
  destruct (getitem (force self) 1) as [f_1|]; cbn [bind]; [|reflexivity].
  destruct (getitem (inter_fiber_angle self) 1) as [a_1|]; cbn [bind];
    [|reflexivity].
  change (bootstrap (set_shear_torque self c0) f_1 a_1)
    with (bootstrap self f_1 a_1).
  destruct (setitem _ _ _) as [c|]; cbn [bind]; [|reflexivity].
  rewrite torque_loop_ignores_torque.
  destruct (torque_loop _ _ _); reflexivity.
Qed.

Lemma calculate_shear_torque_2_ignores_torque (self : t) (c0 : list R) :
  calculate_shear_torque_2 (set_shear_torque self c0)
  = calculate_shear_torque_2 self.
Proof.
  unfold calculate_shear_torque_2.
  cbn [length width shear_angle force set_shear_torque].
  destruct (py_truediv _ _); cbn [bind]; [|reflexivity].
  destruct (np_binop Rminus _ _); cbn [bind]; [|reflexivity].
  destruct (np_binop Rmult _ _); reflexivity.
Qed.

Lemma calculate_shear_torque_2_returns (self self' : t) :
  calculate_shear_torque_2 self = Ok self' ->
  exists c, self' = set_shear_torque self c.
Proof.
  unfold calculate_shear_torque_2.
  destruct (py_truediv _ _); cbn [bind]; [|discriminate].
  destruct (np_binop Rminus _ _); cbn [bind]; [|discriminate].
  destruct (np_binop Rmult _ _); cbn [bind]; [|discriminate].
  intros [= <-]. eauto.
Qed.

(** X8. A torque computation does not depend on the torque already stored:
    either mode, run on the object that Mode A or Mode B returned, gives exactly
    what it gives on the object before; in particular running a mode twice
    changes nothing the second time, and the mode run last fully overwrites. *)
Theorem torque_recomputation (self after : t) :
  calculate_shear_torque self = Ok after \/
  calculate_shear_torque_2 self = Ok after ->
  calculate_shear_torque after = calculate_shear_torque self /\
  calculate_shear_torque_2 after = calculate_shear_torque_2 self.
Proof.
  intros H.
  assert (Hc : exists c, after = set_shear_torque self c).
  { destruct H as [H|H].
    - destruct (calculate_shear_torque_returns _ _ H) as (c & -> & _). eauto.
    - apply (calculate_shear_torque_2_returns _ _ H). }
  destruct Hc as (c & ->). split.
  - apply calculate_shear_torque_ignores_torque.
  - apply calculate_shear_torque_2_ignores_torque.
Qed.

Lemma torque_recomputation_witness :
  exists self after,
    scenario = Ok self /\
    calculate_shear_torque self = Ok after /\
    calculate_shear_torque after = Ok after.
Proof.
  destruct scenario_runs as (self & E & WF & HN & _).
  destruct (calculate_shear_torque_runs self WF) as (c & _ & _ & R & _);
    [rewrite HN; lia|].
  exists self, (set_shear_torque self c).
  split; [exact E|]. split; [exact R|].
  transitivity (calculate_shear_torque self); [|exact R].
  exact (proj1 (torque_recomputation self _ (or_introl R))).
Defined.

Lemma calculate_shear_force_returns (self self' : t) :
  calculate_shear_force self = Ok self' ->
  exists with_torque v,
    (if shear_torque_computed self then with_torque = self
     else calculate_shear_torque self = Ok with_torque) /\
    shear_torque_computed with_torque = true /\
    np_binop Rdiv (shear_torque with_torque)
      (map cos (shear_angle with_torque)) = Ok v /\
    self' = set_shear_force with_torque v.
Proof.
  unfold calculate_shear_force.
  destruct (shear_torque_computed self) eqn:Hflag; cbn [negb bind].
  - destruct (np_binop _ _ _) as [v|] eqn:Ev; cbn [bind]; [|discriminate].
    intros [= <-]. exists self, v. auto.
  - destruct (calculate_shear_torque self) as [s0|] eqn:E0; cbn [bind];
      [|discriminate].
    destruct (np_binop _ _ _) as [v|] eqn:Ev; cbn [bind]; [|discriminate].
    intros [= <-]. exists s0, v. repeat split; auto.
    destruct (calculate_shear_torque_returns _ _ E0) as (c & -> & _).
    reflexivity.
Qed.

(** X9. Deriving the shear force a second time changes nothing: on the object
    that [calculate_shear_force] returned, it returns that same object. *)
Theorem shear_force_idempotent (self after : t) :
  calculate_shear_force self = Ok after ->
  calculate_shear_force after = Ok after.
Proof.
  intros H.
  destruct (calculate_shear_force_returns _ _ H)
    as (s0 & v & _ & Hflag & Ev & ->).
  unfold calculate_shear_force.
  cbn [shear_torque_computed set_shear_force].
  rewrite Hflag. cbn [negb bind].
  cbn [shear_torque shear_angle set_shear_force].
  rewrite Ev. reflexivity.
Qed.

Lemma shear_force_idempotent_witness :
  exists self after,
    scenario = Ok self /\
    calculate_shear_force self = Ok after /\
    calculate_shear_force after = Ok after.
Proof.
  destruct scenario_runs as (self & E & WF & HN & _).
  destruct (calculate_shear_force_runs self WF) as (after & F & _);
    [right; rewrite HN; lia|].
  exists self, after. split; [exact E|]. split; [exact F|].
  exact (shear_force_idempotent self after F).
Defined.

(** X10. Mode B does not invalidate a shear force derived earlier: run after
    [calculate_shear_force], it replaces the torque but leaves the shear-force
    array and its flag, so [plot_shear_force_angle] then recomputes nothing and
    draws the shear force of the earlier torque. *)
Theorem shear_force_kept_by_mode_b (self derived replaced : t) :
  calculate_shear_force self = Ok derived ->
  calculate_shear_torque_2 derived = Ok replaced ->
  shear_force replaced = shear_force derived /\
  shear_force_computed replaced = true /\
  fst (plot_shear_force_angle replaced) = replaced /\
  forall fig, snd (plot_shear_force_angle replaced) = Ok fig ->
              ydata fig = shear_force derived.
Proof.
  intros F B.
  destruct (calculate_shear_force_returns _ _ F) as (s0 & v & _ & _ & _ & ->).
  destruct (calculate_shear_torque_2_returns _ _ B) as (c & ->).
  unfold plot_shear_force_angle. cbn. repeat split.
  intros fig. destruct (ax_plot _ _); cbn [bind]; [|discriminate].
  now intros [= <-].
Qed.

Lemma shear_force_kept_by_mode_b_witness :
  exists self derived replaced,
    scenario = Ok self /\
    calculate_shear_force self = Ok derived /\
    calculate_shear_torque_2 derived = Ok replaced /\
    shear_force replaced = shear_force derived.
Proof.
  destruct scenario_runs as (self & E & WF & HN & _).
  destruct (calculate_shear_force_runs self WF) as (derived & F & _);
    [right; rewrite HN; lia|].
  pose proof (calculate_shear_force_well_formed _ _ WF F) as WF1.
  pose proof (calculate_shear_torque_2_runs _ WF1) as B.
  eexists self, derived, _. split; [exact E|]. split; [exact F|].
  split; [exact B|].
  exact (proj1 (shear_force_kept_by_mode_b _ _ _ F B)).
Defined.

(** X11. Mode B followed by [calculate_shear_force] works on every well-formed
    object, also on fewer than two samples: Mode A is not run, the torque stays
    the closed form and [shear_force[i]] is that torque over
    [cos(shear_angle[i])]. On fewer than two samples with no torque computed,
    [calculate_shear_force] alone raises [IndexError]. *)
Theorem shear_force_after_mode_b (self : t) :
  well_formed self ->
  (exists closed derived,
     calculate_shear_torque_2 self = Ok closed /\
     calculate_shear_force closed = Ok derived /\
     shear_torque derived = shear_torque closed /\
     forall i f_i sa_i,
       nth_error (force self) i = Some f_i ->
       nth_error (shear_angle self) i = Some sa_i ->
       nth_error (shear_force derived) i
       = Some ((length self / width self - 1) * f_i
               * (cos (sa_i / 2) - sin (sa_i / 2))
               / (2 * length self - 3 * width self) / cos sa_i)) /\
  ((number_mesures self < 2)%nat -> shear_torque_computed self = false ->
   calculate_shear_force self = Raise IndexError).
Proof.
  intros WF. split.
  - pose proof (calculate_shear_torque_2_runs _ WF) as B.
    pose proof (calculate_shear_torque_2_well_formed _ _ WF B) as WF1.
    eexists. eexists. split; [exact B|].
    unfold calculate_shear_force at 1.
    cbn [shear_torque_computed set_shear_torque negb bind].
    rewrite (shear_force_division _ WF1). cbn [bind].
    split; [reflexivity|]. split; [reflexivity|].
    intros i f_i sa_i Hf Hs. cbn.
    apply zip_with_nth; [|now apply map_nth_error].
    now rewrite (zip_with_nth _ _ _ _ _ _ Hf Hs).
  - intros HN Hflag. unfold calculate_shear_force. rewrite Hflag.
    cbn [negb]. unfold calculate_shear_torque.
    destruct (getitem_cases (force self) 1) as [->|[f_1 ->]]; [reflexivity|].
    cbn [bind].
    destruct (getitem_cases (inter_fiber_angle self) 1) as [->|[a_1 ->]];
      [reflexivity|].
    cbn [bind]. rewrite setitem_out_of_range; [reflexivity|].
    rewrite np_zeros_length. lia.
Qed.

Lemma shear_force_after_mode_b_witness :
  exists self closed derived,
    single_sample = Ok self /\ well_formed self /\
    calculate_shear_force self = Raise IndexError /\
    calculate_shear_torque_2 self = Ok closed /\
    calculate_shear_force closed = Ok derived.
Proof.
  destruct (__init___runs [0] [0] 150 450 1 "Flax 250")
    as (self & E & _ & _ & HN & H); [reflexivity | lra | lra |].
  pose proof (__init___well_formed _ _ _ _ _ _ _ E) as WF.
  destruct (shear_force_after_mode_b self WF)
    as ((closed & derived & B & F & _) & Hshort).
  exists self, closed, derived. split; [exact E|]. split; [exact WF|].
  split; [|split; [exact B | exact F]].
  apply Hshort; [rewrite HN; simpl; lia | tauto].
Defined.

(** ** Plots *)

Lemma ax_plot_same_length (x y : list R) :
  List.length x = List.length y -> ax_plot x y = Ok tt.
Proof.
  intros H. unfold ax_plot. apply Nat.eqb_eq in H. now rewrite H.
Qed.

Lemma degrees_length (angles : list R) :
  List.length (degrees angles) = List.length angles.
Proof. apply length_map. Qed.

(** X12. The two displacement plots never compute and never fail on a well-
    formed object, whatever the number of samples: they return the object as it
    was, and the angle plot draws the shear angles in degrees against the
    displacements. *)
Theorem displacement_plots_read_only (self : t) :
  well_formed self ->
  exists force_fig angle_fig,
    plot_force_displacement self = (self, Ok force_fig) /\
    plot_angle_displacement self = (self, Ok angle_fig) /\
    xdata force_fig = displacement self /\
    ydata force_fig = force self /\
    xdata angle_fig = displacement self /\
    List.length (ydata angle_fig) = number_mesures self /\
    forall i sa_i,
      nth_error (shear_angle self) i = Some sa_i ->
      nth_error (ydata angle_fig) i = Some (sa_i * 180 / PI).
Proof.
  intros (Hd & Hf & _ & Hs & _).
  unfold plot_force_displacement, plot_angle_displacement.
  rewrite !ax_plot_same_length by (rewrite ?degrees_length; congruence).
  cbn [bind]. eexists. eexists. split; [reflexivity|]. split; [reflexivity|].
  cbn. repeat split.
  - now rewrite degrees_length.
  - intros i sa_i Hi. unfold degrees. now rewrite (map_nth_error _ _ _ Hi).
Qed.

Lemma displacement_plots_read_only_witness :
  exists self force_fig,
    single_sample = Ok self /\ well_formed self /\
    plot_force_displacement self = (self, Ok force_fig).
Proof.
  destruct (__init___runs [0] [0] 150 450 1 "Flax 250")
    as (self & E & _); [reflexivity | lra | lra |].
  pose proof (__init___well_formed _ _ _ _ _ _ _ E) as WF.
  destruct (displacement_plots_read_only self WF) as (ff & _ & Hf & _).
  exists self, ff. auto.
Defined.

(** X13. [plot_torque_angle] computes at most once: when it has drawn, the
    object it returns has its torque computed, is the object given if the torque
    was computed already, and a second call returns the same object and the same
    figure; the figure holds the torque against the shear angles as stored. *)
Theorem plot_torque_angle_cached (self drawn : t) (fig : figure) :
  plot_torque_angle self = (drawn, Ok fig) ->
  shear_torque_computed drawn = true /\
  (shear_torque_computed self = true -> drawn = self) /\
  (shear_torque_computed self = false ->
   calculate_shear_torque self = Ok drawn) /\
  plot_torque_angle drawn = (drawn, Ok fig) /\
  xdata fig = shear_angle self /\
  ydata fig = shear_torque drawn.
Proof.
  unfold plot_torque_angle at 1.
  destruct (shear_torque_computed self) eqn:Hflag; cbn [negb].
  - destruct (ax_plot _ _) eqn:Ep; cbn [bind]; [|discriminate].
    intros [= <- <-]. cbn. repeat split; try discriminate; auto.
    unfold plot_torque_angle. rewrite Hflag. cbn [negb]. now rewrite Ep.
  - destruct (calculate_shear_torque self) as [s1|] eqn:E; [|discriminate].
    destruct (ax_plot _ _) eqn:Ep; cbn [bind]; [|discriminate].
    intros [= <- <-].
    destruct (calculate_shear_torque_returns _ _ E) as (c & -> & _).
    cbn [shear_angle shear_torque set_shear_torque] in Ep.
    cbn. repeat split; try discriminate; auto.
    unfold plot_torque_angle.
    cbn [shear_torque_computed shear_angle shear_torque name set_shear_torque
         negb].
    now rewrite Ep.
Qed.

Lemma plot_torque_angle_cached_witness :
  exists self drawn fig,
    scenario = Ok self /\
    plot_torque_angle self = (drawn, Ok fig) /\
    plot_torque_angle drawn = (drawn, Ok fig).
Proof.
  destruct scenario_runs as (self & E & WF & HN & Hflag).
  destruct (calculate_shear_torque_runs self WF) as (c & _ & _ & R & Hc & _);
    [rewrite HN; lia|].
  assert (P : exists fig,
             plot_torque_angle self = (set_shear_torque self c, Ok fig)).
  { unfold plot_torque_angle. rewrite Hflag. cbn [negb]. rewrite R.
    rewrite ax_plot_same_length; [cbn [bind]; eauto|].
    cbn. destruct WF as (_ & _ & _ & Hs & _). congruence. }
  destruct P as (fig & P).
  exists self, (set_shear_torque self c), fig.
  split; [exact E|]. split; [exact P|].
  exact (proj1 (proj2 (proj2 (proj2 (plot_torque_angle_cached _ _ _ P))))).
Defined.

(** X14. The two plots against the shear angle carry the same x-axis label, in
    degrees, but not the same abscissas: the force plot draws the abscissas of
    the torque plot multiplied by 180/pi. *)
Theorem shear_angle_axes (self drawn drawn' : t)
    (torque_fig force_fig : figure) :
  plot_torque_angle self = (drawn, Ok torque_fig) ->
  plot_shear_force_angle drawn = (drawn', Ok force_fig) ->
  xlabel force_fig = xlabel torque_fig /\
  xdata torque_fig = shear_angle self /\
  xdata force_fig = map (fun a => a * 180 / PI) (xdata torque_fig).
Proof.
  intros P3 P4.
  assert (Hx : xdata torque_fig = shear_angle self
               /\ shear_angle drawn = shear_angle self
               /\ xlabel torque_fig = "Shear Angle (°)"%string).
  { revert P3. unfold plot_torque_angle.
    destruct (negb _).
    - destruct (calculate_shear_torque self) as [s1|] eqn:E; [|discriminate].
      destruct (ax_plot _ _); cbn [bind]; [|discriminate].
      intros [= <- <-].
      destruct (calculate_shear_torque_returns _ _ E) as (c & -> & _).
      cbn. auto.
    - destruct (ax_plot _ _); cbn [bind]; [|discriminate].
      intros [= <- <-]. cbn. auto. }
  destruct Hx as (Hx & Hs & Hl). rewrite Hx, Hl, <- Hs. clear Hx Hl Hs P3.
  revert P4. unfold plot_shear_force_angle.
  destruct (negb _).
  - destruct (calculate_shear_force drawn) as [s2|] eqn:F; [|discriminate].
    destruct (ax_plot _ _); cbn [bind]; [|discriminate].
    intros [= <- <-].
    destruct (calculate_shear_force_returns _ _ F)
      as (s0 & v & H0 & _ & _ & ->).
    cbn. repeat split.
    destruct (shear_torque_computed drawn); [now subst|].
    destruct (calculate_shear_torque_returns _ _ H0) as (c & -> & _).
    reflexivity.
  - destruct (ax_plot _ _); cbn [bind]; [|discriminate].
    intros [= <- <-]. cbn. auto.
Qed.

Lemma shear_force_step (self : t) :
  well_formed self -> shear_torque_computed self = true ->
  exists v,
    calculate_shear_force self = Ok (set_shear_force self v) /\
    List.length v = number_mesures self.
Proof.
  intros WF Hflag. unfold calculate_shear_force. rewrite Hflag.
  cbn [negb bind]. rewrite (shear_force_division _ WF). cbn [bind].
  eexists. split; [reflexivity|].
  destruct WF as (_ & _ & _ & Hs & Ht & _).
  rewrite zip_with_length; rewrite ?length_map; congruence.
Qed.

(** X15. The two lazy plots, called in the order of the script on a well-formed
    object whose shear force is not computed, compute the torque once: they
    draw, and the object they leave is exactly the one [calculate_shear_force]
    alone returns; the figures hold its torque and its shear force. *)
Theorem lazy_plots_compose (self : t) :
  well_formed self ->
  shear_force_computed self = false ->
  shear_torque_computed self = true \/ (2 <= number_mesures self)%nat ->
  exists drawn final torque_fig force_fig,
    plot_torque_angle self = (drawn, Ok torque_fig) /\
    plot_shear_force_angle drawn = (final, Ok force_fig) /\
    calculate_shear_force self = Ok final /\
    ydata torque_fig = shear_torque final /\
    ydata force_fig = shear_force final.
Proof.
  intros WF Hforce Hready.
  assert (Hdrawn : exists drawn,
            (if negb (shear_torque_computed self)
             then calculate_shear_torque self else Ok self) = Ok drawn /\
            well_formed drawn /\ shear_torque_computed drawn = true /\
            shear_force_computed drawn = false /\
            calculate_shear_force self = calculate_shear_force drawn).
  { destruct (shear_torque_computed self) eqn:Hflag; cbn [negb].
    - exists self. auto.
    - destruct Hready as [?|HN]; [discriminate|].
      destruct (calculate_shear_torque_runs self WF HN)
        as (c & _ & _ & E & Hc & _).
      exists (set_shear_torque self c). split; [exact E|].
      split; [now apply set_shear_torque_well_formed|].
      split; [reflexivity|]. split; [exact Hforce|].
      unfold calculate_shear_force at 1. rewrite Hflag. cbn [negb].
      rewrite E. reflexivity. }
  destruct Hdrawn as (drawn & Ed & WFd & Hflagd & Hforced & Hsame).
  destruct (shear_force_step drawn WFd Hflagd) as (v & F & Hv).
  pose proof WFd as (_ & _ & _ & Hs & Ht & _).
  eexists drawn, (set_shear_force drawn v), _, _.
  unfold plot_torque_angle. rewrite Ed.
  rewrite ax_plot_same_length by congruence. cbn [bind].
  unfold plot_shear_force_angle. rewrite Hforced. cbn [negb]. rewrite F.
  rewrite ax_plot_same_length
    by (rewrite degrees_length; cbn [shear_angle shear_force set_shear_force];
        congruence).
  cbn [bind]. rewrite Hsame, F. repeat split.
Qed.

Lemma lazy_plots_compose_witness :
  exists self drawn final torque_fig force_fig,
    scenario = Ok self /\
    plot_torque_angle self = (drawn, Ok torque_fig) /\
    plot_shear_force_angle drawn = (final, Ok force_fig) /\
    calculate_shear_force self = Ok final.
Proof.
  destruct (__init___runs [0; 1; 2; 3] [0; 10; 20; 30] 150 450 1 "Flax 250")
    as (self & E & _ & _ & HN & H); [reflexivity | lra | lra |].
  pose proof (__init___well_formed _ _ _ _ _ _ _ E) as WF.
  destruct (lazy_plots_compose self WF)
    as (s1 & s2 & f3 & f4 & P3 & P4 & F & _).
  - tauto.
  - right. rewrite HN. simpl. lia.
  - exists self, s1, s2, f3, f4. auto.
Defined.

Lemma shear_angle_axes_witness :
  exists self drawn drawn' torque_fig force_fig,
    scenario = Ok self /\
    plot_torque_angle self = (drawn, Ok torque_fig) /\
    plot_shear_force_angle drawn = (drawn', Ok force_fig) /\
    xdata force_fig = map (fun a => a * 180 / PI) (xdata torque_fig).
Proof.
  destruct (__init___runs [0; 1; 2; 3] [0; 10; 20; 30] 150 450 1 "Flax 250")
    as (self & E & _ & _ & HN & H); [reflexivity | lra | lra |].
  pose proof (__init___well_formed _ _ _ _ _ _ _ E) as WF.
  assert (Hplots : exists s1 s2 f3 f4,
            plot_torque_angle self = (s1, Ok f3) /\
            plot_shear_force_angle s1 = (s2, Ok f4)).
  { pose proof WF as (_ & _ & _ & Hs & _).
    destruct (calculate_shear_torque_runs self WF) as (c & _ & _ & R & Hc & _);
      [rewrite HN; simpl; lia|].
    assert (WF1 := set_shear_torque_well_formed self c WF Hc).
    destruct (shear_force_step _ WF1 eq_refl) as (v & F & Hv).
    cbn [number_mesures set_shear_torque] in Hv.
    eexists (set_shear_torque self c), (set_shear_force _ v), _, _.
    unfold plot_torque_angle.
    replace (shear_torque_computed self) with false by (symmetry; tauto).
    cbn [negb]. rewrite R.
    rewrite ax_plot_same_length by (cbn; congruence). cbn [bind].
    split; [reflexivity|].
    unfold plot_shear_force_angle.
    replace (shear_force_computed (set_shear_torque self c)) with false
      by (cbn; symmetry; tauto).
    cbn [negb]. rewrite F.
    rewrite ax_plot_same_length by (rewrite degrees_length; cbn; congruence).
    reflexivity. }
  destruct Hplots as (s1 & s2 & f3 & f4 & P3 & P4).
  exists self, s1, s2, f3, f4. repeat (split; [assumption|]).
  exact (proj2 (proj2 (shear_angle_axes _ _ _ _ _ P3 P4))).
Defined.

(** ** The script: reading the table and running the plots *)

Import Main.

Lemma two_columns_split (d f : list R) :
  List.length d = List.length f ->
  map (fun row => nth 0 row 0) (two_columns d f) = d /\
  map (fun row => nth 1 row 0) (two_columns d f) = f.
Proof.
  revert f. induction d as [|x d IH]; intros [|y f] H; try discriminate;
    [split; reflexivity|].
  destruct (IH f) as (Hd & Hf); [simpl in H; lia|].
  cbn [two_columns map nth]. now rewrite Hd, Hf.
Qed.

Lemma importa_data_runs (ncols : nat) (row0 : list R) (rest : list (list R)) :
  (2 <= ncols)%nat ->
  importa_data (Array2 ncols (row0 :: rest))
  = Ok (map (fun row => nth 0 row 0 - nth 0 row0 0) (row0 :: rest),
        map (fun row => nth 1 row 0 - nth 1 row0 0) (row0 :: rest)).
Proof.
  intros H. unfold importa_data, column, item. cbn [nth_error].
  assert (H0 : (0 <? ncols)%nat = true) by (apply Nat.ltb_lt; lia).
  assert (H1 : (1 <? ncols)%nat = true) by (apply Nat.ltb_lt; lia).
  rewrite H0, H1. cbn [bind]. now rewrite !map_map.
Qed.

Lemma importa_data_returns (data : ndarray) (d f : list R) :
  importa_data data = Ok (d, f) ->
  exists ncols row0 rest,
    data = Array2 ncols (row0 :: rest) /\ (2 <= ncols)%nat.
Proof.
  unfold importa_data, column, item.
  destruct data as [a|ncols rows]; [discriminate|].
  destruct (0 <? ncols)%nat; cbn [bind]; [|discriminate].
  destruct rows as [|row0 rest]; [discriminate|]. cbn [nth_error bind].
  destruct (1 <? ncols)%nat eqn:H1; cbn [bind]; [|discriminate].
  intros _. apply Nat.ltb_lt in H1. exists ncols, row0, rest. split; auto.
Qed.

(** X16. Whatever [importa_data] returns is ready for the constructor: the two
    sequences have the same length, one entry per row of the table, both start
    at 0 (the first row is the reference), and the constructor can refuse them
    for the ratio only, never for their sizes. *)
Theorem importa_data_reference (data : ndarray) (d f : list R) :
  importa_data data = Ok (d, f) ->
  List.length d = List.length f /\
  (forall ncols rows, data = Array2 ncols rows ->
                      List.length d = List.length rows) /\
  nth_error d 0 = Some 0 /\
  nth_error f 0 = Some 0 /\
  forall w l th n,
    __init__ d f w l th n = Raise ValueError -> w <> 0 /\ l / w < 2.
Proof.
  intros H.
  destruct (importa_data_returns _ _ _ H) as (ncols & row0 & rest & -> & Hc).
  rewrite (importa_data_runs _ _ _ Hc) in H. injection H as <- <-.
  split; [cbn [List.length]; now rewrite !length_map|].
  split; [intros ? ? [= <- <-]; cbn [List.length]; now rewrite length_map|].
  split; [cbn; f_equal; lra|]. split; [cbn; f_equal; lra|].
  intros w l th n. unfold __init__, py_truediv.
  cbn [List.length]. rewrite !length_map, Nat.eqb_refl. cbn [negb].
  destruct (Req_dec_T w 0); cbn [bind]; [discriminate|].
  destruct (Rlt_dec (l / w) 2); [auto | discriminate].
Qed.

Lemma importa_data_reference_witness :
  exists d f,
    importa_data (Array2 2 [[5; 7]; [6; 17]]) = Ok (d, f) /\
    nth_error d 0 = Some 0 /\ nth_error f 0 = Some 0.
Proof.
  eexists. eexists.
  assert (H := importa_data_runs 2 [5; 7] [[6; 17]] (le_n 2)).
  split; [exact H|].
  destruct (importa_data_reference _ _ _ H) as (_ & _ & Hd & Hf & _).
  split; [exact Hd | exact Hf].
Defined.

Lemma importa_data_two_columns (x y : R) (d f : list R) :
  List.length d = List.length f ->
  importa_data (Array2 2 (two_columns (x :: d) (y :: f)))
  = Ok (map (fun v => v - x) (x :: d), map (fun v => v - y) (y :: f)).
Proof.
  intros Hlen. cbn [two_columns]. rewrite importa_data_runs by lia.
  change ([x; y] :: two_columns d f) with (two_columns (x :: d) (y :: f)).
  destruct (two_columns_split (x :: d) (y :: f)) as (Hd & Hf);
    [simpl; lia|].
  cbn [nth].
  rewrite <- (map_map (fun row => nth 0 row 0) (fun v => v - x)).
  rewrite <- (map_map (fun row => nth 1 row 0) (fun v => v - y)).
  now rewrite Hd, Hf.
Qed.

Lemma map_minus_zero (z : R) (a : list R) :
  z = 0 -> map (fun v => v - z) a = a.
Proof.
  intros ->. rewrite <- (map_id a) at 2. apply map_ext. intros v. lra.
Qed.

(** X17. Reading back what [importa_data] returned changes nothing: on the two-
    column table made of its two sequences it returns them again. *)
Theorem importa_data_idempotent (data : ndarray) (d f : list R) :
  importa_data data = Ok (d, f) ->
  importa_data (Array2 2 (two_columns d f)) = Ok (d, f).
Proof.
  intros H.
  destruct (importa_data_returns _ _ _ H) as (ncols & row0 & rest & -> & Hc).
  rewrite (importa_data_runs _ _ _ Hc) in H. injection H as <- <-.
  cbn [map]. rewrite importa_data_two_columns by (now rewrite !length_map).
  rewrite !map_minus_zero by lra. reflexivity.
Qed.

Lemma importa_data_idempotent_witness :
  exists d f,
    importa_data (Array2 2 [[5; 7]; [6; 17]]) = Ok (d, f) /\
    importa_data (Array2 2 (two_columns d f)) = Ok (d, f).
Proof.
  eexists. eexists.
  assert (H := importa_data_runs 2 [5; 7] [[6; 17]] (le_n 2)).
  split; [exact H|]. exact (importa_data_idempotent _ _ _ H).
Defined.

(** X18. The script runs to its last plot on every table of at least two rows
    and two columns: it ends with four figures and an object that has one sample
    per row, torque (Mode A) and shear force computed, a first sample at rest
    (displacement 0, shear angle 0, torque 0), and whose torque and shear force
    are the ordinates of the last two figures. *)
Theorem main_runs (ncols : nat) (rows : list (list R)) :
  (2 <= ncols)%nat -> (2 <= List.length rows)%nat ->
  exists sample force_fig angle_fig torque_fig shear_fig,
    main (Array2 ncols rows)
    = Ok (sample, [force_fig; angle_fig; torque_fig; shear_fig]) /\
    number_mesures sample = List.length rows /\
    shear_torque_computed sample = true /\
    shear_force_computed sample = true /\
    nth_error (displacement sample) 0 = Some 0 /\
    nth_error (shear_angle sample) 0 = Some 0 /\
    nth_error (shear_torque sample) 0 = Some 0 /\
    ydata torque_fig = shear_torque sample /\
    ydata shear_fig = shear_force sample.
Proof.
  intros Hc Hr. destruct rows as [|row0 rest]; [simpl in Hr; lia|].
  unfold main. rewrite (importa_data_runs _ _ _ Hc). cbn [bind fst snd].
  set (d := map (fun row => nth 0 row 0 - nth 0 row0 0) (row0 :: rest)).
  set (f := map (fun row => nth 1 row 0 - nth 1 row0 0) (row0 :: rest)).
  assert (Hd0 : nth_error d 0 = Some 0) by (cbn; f_equal; lra).
  assert (Hdlen : List.length d = List.length (row0 :: rest))
    by apply length_map.
  destruct (__init___runs d f 150 450 1 "Flax 250")
    as (s0 & E & Hd & _ & HN & _ & _ & _ & _ & _ & _ & _ & _ & Hia & Hsa
        & _ & Htq & _ & Hfc);
    [unfold d, f; now rewrite !length_map | lra | lra |].
  pose proof (__init___well_formed _ _ _ _ _ _ _ E) as WF.
  pose proof WF as (Hld & Hlf & _ & Hls & _).
  rewrite E. cbn [bind].
  unfold show at 1, plot_force_displacement. cbn [fst snd].
  rewrite ax_plot_same_length by congruence. cbn [bind fst snd].
  unfold show at 1, plot_angle_displacement. cbn [fst snd].
  rewrite ax_plot_same_length by (rewrite degrees_length; congruence).
  cbn [bind fst snd].
  destruct (calculate_shear_torque_runs s0 WF)
    as (c & _ & _ & R & Hclen & _ & _ & Hc0 & _); [rewrite HN; lia|].
  unfold show at 1, plot_torque_angle. rewrite Htq. cbn [negb]. rewrite R.
  cbn [fst snd].
  rewrite ax_plot_same_length
    by (cbn [shear_angle shear_torque set_shear_torque]; congruence).
  cbn [bind fst snd].
  pose proof (set_shear_torque_well_formed s0 c WF Hclen) as WF1.
  destruct (shear_force_step _ WF1 eq_refl) as (v & F & Hv).
  cbn [number_mesures set_shear_torque] in Hv.
  unfold show, plot_shear_force_angle.
  cbn [shear_force_computed set_shear_torque]. rewrite Hfc. cbn [negb].
  rewrite F. cbn [fst snd].
  rewrite ax_plot_same_length
    by (rewrite degrees_length;
        cbn [shear_angle shear_force set_shear_force set_shear_torque];
        congruence).
  cbn [bind fst snd].
  eexists. eexists. eexists. eexists. eexists.
  split; [reflexivity|].
  cbn [number_mesures shear_torque_computed shear_force_computed displacement
       shear_angle shear_torque shear_force ydata set_shear_force
       set_shear_torque].
  split; [congruence|]. split; [reflexivity|]. split; [reflexivity|].
  split; [now rewrite Hd|]. split; [|split; [exact Hc0 | split; reflexivity]].
  rewrite Hsa, Hia. unfold _calculate_shear_angle, _calculate_inter_fibre_angle.
  rewrite (map_nth_error _ _ _ (map_nth_error _ _ _ Hd0)).
  rewrite rest_inter_fiber_angle by lra. f_equal. lra.
Qed.

Lemma main_runs_witness :
  exists sample figures,
    main (Array2 2 [[5; 7]; [6; 17]; [7; 27]]) = Ok (sample, figures) /\
    number_mesures sample = 3%nat.
Proof.
  destruct (main_runs 2 [[5; 7]; [6; 17]; [7; 27]])
    as (sample & f1 & f2 & f3 & f4 & M & HN & _); [lia | simpl; lia |].
  exists sample, [f1; f2; f3; f4]. split; [exact M | exact HN].
Defined.

(** X19.  The script needs a table: [importa_data] returns exactly on a
    two-dimensional array of at least two columns and one row.  On any other
    array, such as the one-dimensional array [np.genfromtxt] makes of a file
    with a single row, its indexing raises [IndexError], never another
    exception, and the script ends there, before a specimen is built. *)
Theorem importa_data_needs_table (data : ndarray) :
  ((exists d f, importa_data data = Ok (d, f)) <->
   (exists ncols row0 rest,
      data = Array2 ncols (row0 :: rest) /\ (2 <= ncols)%nat)) /\
  (forall e, importa_data data = Raise e ->
             e = IndexError /\ main data = Raise IndexError).
Proof.
  split; [split|].
  - intros (d & f & H). exact (importa_data_returns _ _ _ H).
  - intros (ncols & row0 & rest & -> & Hc).
    rewrite (importa_data_runs _ _ _ Hc). eauto.
  - intros e. unfold main.
    assert (H : forall r : result (list R * list R),
              r = importa_data data ->
              r = Raise IndexError \/ exists v, r = Ok v).
    { intros r ->. unfold importa_data, column, item.
      destruct data as [a|ncols rows]; [now left|].
      destruct (0 <? ncols)%nat; cbn [bind]; [|now left].
      destruct rows as [|row0 rest]; [now left|]. cbn [nth_error bind].
      destruct (1 <? ncols)%nat; cbn [bind]; [right; eauto | now left]. }
    destruct (H _ eq_refl) as [->|(v & ->)]; [|discriminate].
    intros [= <-]. split; reflexivity.
Qed.

Lemma importa_data_needs_table_witness :
  importa_data (Main.Array1 [5; 7]) = Raise IndexError /\
  main (Main.Array1 [5; 7]) = Raise IndexError.
Proof.
  split; [reflexivity|].
  exact (proj2 (proj2 (importa_data_needs_table (Main.Array1 [5; 7]))
                  IndexError eq_refl)).
Defined.

(** ** Mode A is linear in the forces *)

Lemma last_scale (k : R) (fp : list R) :
  last (map (Rmult k) fp) 0 = k * last fp 0.
Proof.
  induction fp as [|y [|y' fp] IH]; cbn [map last]; [lra | reflexivity |].
  exact IH.
Qed.

Lemma interp_from_scale (k x : R) (xp : list R) :
  forall fp, interp_from x xp (map (Rmult k) fp) = k * interp_from x xp fp.
Proof.
  induction xp as [|xj xp IH]; intros fp.
  - destruct fp; cbn; lra.
  - destruct xp as [|xj1 xp], fp as [|yj [|yj1 fp]]; cbn [map interp_from];
      try lra.
    destruct (Rle_dec xj1 x); [apply (IH (yj1 :: fp))|].
    destruct (Req_dec_T xj x); [reflexivity|]. unfold Rdiv. ring.
Qed.

Lemma np_interp_scale (k x : R) (xp fp : list R) :
  np_interp x xp (map (Rmult k) fp)
  = match np_interp x xp fp with
    | Ok v => Ok (k * v)
    | Raise e => Raise e
    end.
Proof.
  unfold np_interp. destruct xp as [|x0 xp]; [reflexivity|].
  rewrite length_map. destruct (negb _); [reflexivity|].
  destruct (Rlt_dec _ _); [now rewrite last_scale|].
  destruct (Rlt_dec _ _); [|now rewrite interp_from_scale].
  destruct fp; cbn; f_equal; lra.
Qed.

Lemma update_scale (k : R) (a : list R) (i : nat) (v : R) :
  update (map (Rmult k) a) i (k * v) = map (Rmult k) (update a i v).
Proof.
  revert i. induction a as [|x a IH]; intros [|i]; cbn; try reflexivity.
  now rewrite IH.
Qed.

Lemma np_zeros_scale (k : R) (n : nat) :
  map (Rmult k) (np_zeros n) = np_zeros n.
Proof.
  unfold np_zeros. induction n as [|n IH]; cbn; [reflexivity|].
  rewrite IH. f_equal. lra.
Qed.

Section Scaling.

Variables (k : R) (self scaled : t).
Hypothesis Hforce : force scaled = map (Rmult k) (force self).
Hypothesis Hangle : shear_angle scaled = shear_angle self.
Hypothesis Hfiber : inter_fiber_angle scaled = inter_fiber_angle self.
Hypothesis Hcount : number_mesures scaled = number_mesures self.
Hypothesis Hsemi : semi_sheared_area scaled = semi_sheared_area self.
Hypothesis Harea : sheared_area scaled = sheared_area self.
Hypothesis Hside : length_side_pf scaled = length_side_pf self.

Lemma getitem_force_scale (i : nat) :
  getitem (force scaled) i
  = match getitem (force self) i with
    | Ok f_i => Ok (k * f_i)
    | Raise e => Raise e
    end.
Proof.
  unfold getitem. rewrite Hforce, nth_error_map.
  destruct (nth_error (force self) i); reflexivity.
Qed.

Lemma torque_step_scale (c : list R) (i : nat) :
  torque_step scaled (map (Rmult k) c) i
  = match torque_step self c i with
    | Ok c' => Ok (map (Rmult k) c')
    | Raise e => Raise e
    end.
Proof.
  unfold torque_step. rewrite Hangle, Hfiber, Hsemi, getitem_force_scale.
  destruct (getitem (shear_angle self) i) as [sa_i|]; cbn [bind];
    [|reflexivity].
  rewrite np_interp_scale.
  destruct (np_interp _ _ c) as [st|]; cbn [bind]; [|reflexivity].
  destruct (py_truediv _ _) as [inv|]; cbn [bind]; [|reflexivity].
  destruct (getitem (force self) i) as [f_i|]; cbn [bind]; [|reflexivity].
  destruct (getitem (inter_fiber_angle self) i) as [a_i|]; cbn [bind];
    [|reflexivity].
  unfold setitem. rewrite length_map.
  destruct (_ <? _)%nat; [|reflexivity].
  f_equal. rewrite <- update_scale. f_equal.
  unfold recurrence. rewrite Hside, Hsemi. ring.
Qed.

Lemma torque_loop_scale (indices : list nat) :
  forall c,
    torque_loop scaled indices (map (Rmult k) c)
    = match torque_loop self indices c with
      | Ok c' => Ok (map (Rmult k) c')
      | Raise e => Raise e
      end.
Proof.
  induction indices as [|i rest IH]; intros c; [reflexivity|].
  cbn [torque_loop]. rewrite torque_step_scale.
  destruct (torque_step self c i) as [c'|]; cbn [bind]; [apply IH|reflexivity].
Qed.

Lemma calculate_shear_torque_scale :
  match calculate_shear_torque self with
  | Ok after =>
      exists after',
        calculate_shear_torque scaled = Ok after' /\
        shear_torque after' = map (Rmult k) (shear_torque after)
  | Raise e => calculate_shear_torque scaled = Raise e
  end.
Proof.
  unfold calculate_shear_torque.
  rewrite Hfiber, Hcount, getitem_force_scale.
  destruct (getitem (force self) 1) as [f_1|]; cbn [bind]; [|reflexivity].
  destruct (getitem (inter_fiber_angle self) 1) as [a_1|]; cbn [bind];
    [|reflexivity].
  assert (Hb : bootstrap scaled (k * f_1) a_1 = k * bootstrap self f_1 a_1).
  { unfold bootstrap. rewrite Hside, Harea, Hsemi. unfold Rdiv. ring. }
  rewrite Hb. unfold setitem.
  destruct (_ <? _)%nat; cbn [bind]; [|reflexivity].
  assert (Hu : update (np_zeros (number_mesures self)) 1
                 (k * bootstrap self f_1 a_1)
               = map (Rmult k)
                   (update (np_zeros (number_mesures self)) 1
                      (bootstrap self f_1 a_1)))
    by (now rewrite <- update_scale, np_zeros_scale).
  rewrite Hu, torque_loop_scale.
  destruct (torque_loop self _ _) as [c|]; cbn [bind]; [|reflexivity].
  eexists. split; reflexivity.
Qed.

End Scaling.

(** X6. Mode A is homogeneous in the forces: of two specimens built from the
    same displacements and geometry, the second with every force multiplied by
    [k], Mode A fails on both alike or returns on both, and then every torque of
    the second is [k] times the torque of the first. *)
Theorem mode_a_homogeneous (d f : list R) (w l th : R) (n : string) (k : R)
    (self scaled : t) :
  __init__ d f w l th n = Ok self ->
  __init__ d (map (Rmult k) f) w l th n = Ok scaled ->
  match calculate_shear_torque self with
  | Ok after =>
      exists after',
        calculate_shear_torque scaled = Ok after' /\
        shear_torque after' = map (Rmult k) (shear_torque after)
  | Raise e => calculate_shear_torque scaled = Raise e
  end.
Proof.
  intros E Ek.
  destruct (__init___returns _ _ _ _ _ _ _ E) as (Hlen & Hw & Hr).
  destruct (__init___runs d f w l th n Hlen Hw Hr)
    as (s & E' & _ & Hf & HN & _ & _ & _ & _ & Ha & HA & _ & HL & Hi & Hs & _).
  rewrite E in E'. injection E' as <-.
  destruct (__init___runs d (map (Rmult k) f) w l th n)
    as (s & E' & _ & Hf' & HN' & _ & _ & _ & _ & Ha' & HA' & _ & HL' & Hi'
        & Hs' & _); [now rewrite length_map | assumption | assumption |].
  rewrite Ek in E'. injection E' as <-.
  apply calculate_shear_torque_scale; congruence.
Qed.

Lemma mode_a_homogeneous_witness :
  exists self scaled after after',
    scenario = Ok self /\
    __init__ [0; 1; 2; 3] (map (Rmult 2) [0; 10; 20; 30]) 150 450 1 "Flax 250"
    = Ok scaled /\
    calculate_shear_torque self = Ok after /\
    calculate_shear_torque scaled = Ok after' /\
    shear_torque after' = map (Rmult 2) (shear_torque after).
Proof.
  destruct scenario_runs as (self & E & WF & HN & _).
  destruct (__init___runs [0; 1; 2; 3] (map (Rmult 2) [0; 10; 20; 30])
              150 450 1 "Flax 250")
    as (scaled & Ek & _); [reflexivity | lra | lra |].
  destruct (calculate_shear_torque_runs self WF) as (c & _ & _ & R & _);
    [rewrite HN; lia|].
  pose proof (mode_a_homogeneous _ _ _ _ _ _ 2 self scaled E Ek) as H.
  rewrite R in H. destruct H as (after' & R' & Ht).
  exists self, scaled, (set_shear_torque self c), after'. auto 6.
Defined.

(** X7.  No force, no torque: on a specimen whose forces are all zero and
    whose displacements all have their arccos argument in [-1, 1], every
    torque Mode A returns is zero. *)
Theorem no_force_no_torque (d f : list R) (w l th : R) (n : string)
    (self after : t) :
  __init__ d f w l th n = Ok self ->
  (forall f_i, In f_i f -> f_i = 0) ->
  (forall d_i, In d_i d ->
               -1 <= (d_i + (l - w)) / (2 * ((l - w) / sqrt 2)) <= 1) ->
  calculate_shear_torque self = Ok after ->
  forall c_i, In c_i (shear_torque after) -> c_i = 0.
Proof.
  intros E Hzero _ R c_i Hin.
  destruct (__init___returns _ _ _ _ _ _ _ E) as (Hlen & Hw & Hr).
  destruct (__init___runs d f w l th n Hlen Hw Hr)
    as (s & E' & _ & Hf & _).
  rewrite E in E'. injection E' as <-.
  assert (Hscaled : force self = map (Rmult 0) (force self)).
  { rewrite Hf. clear - Hzero. induction f as [|x f IH]; [reflexivity|].
    cbn [map]. rewrite <- IH by (intros; apply Hzero; now right).
    f_equal. rewrite (Hzero x) by now left. lra. }
  pose proof (calculate_shear_torque_scale 0 self self Hscaled
                eq_refl eq_refl eq_refl eq_refl eq_refl eq_refl) as H.
  rewrite R in H. destruct H as (after' & R' & Ht).
  injection R' as <-.
  rewrite Ht in Hin. apply in_map_iff in Hin as (x & <- & _). lra.
Qed.

Lemma no_force_no_torque_witness :
  exists self after,
    __init__ [0; 1; 2] [0; 0; 0] 150 450 1 "Flax 250" = Ok self /\
    calculate_shear_torque self = Ok after /\
    nth_error (shear_torque after) 2 = Some 0.
Proof.
  destruct (__init___runs [0; 1; 2] [0; 0; 0] 150 450 1 "Flax 250")
    as (self & E & _ & _ & HN & _); [reflexivity | lra | lra |].
  pose proof (__init___well_formed _ _ _ _ _ _ _ E) as WF.
  destruct (calculate_shear_torque_runs self WF) as (c & _ & _ & R & Hc & _);
    [rewrite HN; simpl; lia|].
  exists self, (set_shear_torque self c). split; [exact E|]. split; [exact R|].
  cbn [shear_torque set_shear_torque].
  destruct (nth_error c 2) as [c_2|] eqn:E2.
  - f_equal.
    apply (no_force_no_torque _ _ _ _ _ _ self _ E) with (c_i := c_2) in R.
    + exact R.
    + intros f_i [<-|[<-|[<-|[]]]]; reflexivity.
    + pose proof sqrt2_gt_1 as Hs2. pose proof (sqrt_sqrt 2 ltac:(lra)).
      intros d_i [<-|[<-|[<-|[]]]].
      * replace ((0 + (450 - 150)) / (2 * ((450 - 150) / sqrt 2)))
          with (300 * sqrt 2 / 600) by (field; lra).
        split; nra.
      * replace ((1 + (450 - 150)) / (2 * ((450 - 150) / sqrt 2)))
          with (301 * sqrt 2 / 600) by (field; lra).
        split; nra.
      * replace ((2 + (450 - 150)) / (2 * ((450 - 150) / sqrt 2)))
          with (302 * sqrt 2 / 600) by (field; lra).
        split; nra.
    + cbn [shear_torque set_shear_torque]. eapply nth_error_In; eauto.
  - apply nth_error_None in E2. rewrite Hc, HN in E2. simpl in E2. lia.
Defined.

(** ** Where the table of the first samples is enough *)

Lemma even_steps_runs :
  exists self,
    even_steps = Ok self /\ well_formed self /\
    number_mesures self = 3%nat /\
    shear_angle self = [PI / 2 - PI / 2; PI / 2 - PI / 3; PI / 2 - PI / 6].
Proof.
  destruct (__init___runs
              [0; sqrt 2 * sqrt 3 - 2;
               2 * ((3 - 1) / sqrt 2) * cos (PI / 12) - (3 - 1)]
              [0; 5; 7] 1 3 1 "Generic material")
    as (self & E & _ & _ & HN & _ & _ & _ & _ & _ & _ & _ & _ & Hi & Hs & _);
    [reflexivity | lra | lra |].
  exists self. split; [exact E|].
  split; [exact (__init___well_formed _ _ _ _ _ _ _ E)|].
  split; [exact HN|].
  rewrite Hs, Hi. pose proof PI_RGT_0.
  unfold _calculate_inter_fibre_angle, _calculate_shear_angle, np_arccos.
  cbn [map]. rewrite rest_argument, middle_argument.
  replace ((2 * ((3 - 1) / sqrt 2) * cos (PI / 12) - (3 - 1) + (3 - 1))
           / (2 * ((3 - 1) / sqrt 2)))
    with (cos (PI / 12)) by (field; apply sqrt2_neq_0).
  rewrite <- cos_PI4, <- cos_PI6. rewrite !acos_cos by lra.
  f_equal; [f_equal; lra|]. f_equal; [f_equal; lra|]. f_equal. f_equal. lra.
Qed.

Lemma mode_a_recurrence_over_prefix_witness :
  exists self self',
    even_steps = Ok self /\
    well_formed self /\ (2 <= number_mesures self)%nat /\
    StronglySorted Rlt (shear_angle self) /\
    calculate_shear_torque self = Ok self' /\
    prefix_recurrence self (shear_torque self') 2.
Proof.
  destruct even_steps_runs as (self & E & WF & HN & Hs).
  assert (H2 : (2 <= number_mesures self)%nat) by (rewrite HN; lia).
  assert (Hsorted : StronglySorted Rlt (shear_angle self)).
  { rewrite Hs. pose proof PI_RGT_0.
    repeat constructor; lra. }
  destruct (mode_a_recurrence_over_prefix self WF H2 Hsorted)
    as (self' & R & H).
  exists self, self'. repeat (split; [assumption|]).
  apply (H 2%nat (PI / 2 - PI / 6) (PI / 2 - PI / 3)).
  - rewrite HN. lia.
  - now rewrite Hs.
  - now rewrite Hs.
  - pose proof PI_RGT_0. lra.
Defined.
